(** * bircher: the archive export of [bircher/_main_window.py]

    A shallow embedding of [MainWindow] and of its nested
    [ArchiveWriterThread], with the collaborators the file imports
    ([models.Image], [utils.write_archive], the Qt event loop) modelled
    as far as the handlers of the file use them. *)

From stdpp Require Import base gmap sets list strings sorting.
From Stdlib Require Import Strings.Byte.


(** ** Data model *)

(** Modelled from the spec: [models.Image] is imported by the file but is
    not part of it.  The spec's Image Reference is a source filesystem
    path together with the archive-relative (POSIX) path; the file reads
    the latter as [img.posix_path]. *)
Record Image := mkImage { path : string; posix_path : string }.

#[global] Instance Image_eq_dec : EqDecision Image.
Proof. solve_decision. Defined.

(** One member of a tar archive: its name and its bytes. *)
Record member := mkMember { arcname : string; data : list byte }.

(** What a path of the file system holds: a plain file, or an archive
    under construction ([closed] once the writer has finished it). *)
Inductive node :=
| Regular (content : list byte)
| Archive (members : list member) (closed : bool).

(** Python exceptions, as far as [run] tells them apart: [except
    Exception] catches every class but the ones deriving from
    [BaseException] only. *)
Inductive exception :=
| OSError (filename : string)
| OtherException (name : string)
| NonException (name : string).

Definition isinstance_Exception (e : exception) : bool :=
  match e with
  | NonException _ => false
  | _ => true
  end.

(** The shared state the worker thread and the window both see.  The
    heap holds the list objects: the [ConsensusImageList] of the window
    lives there, and an [_images] field is a reference into the heap, so
    that two fields with the same reference see the same list.  The file
    system maps a path to what it holds; [unwritable] are the paths that
    cannot be opened for writing. *)
Record World := mkWorld {
  collections : gmap nat (list Image);
  files : gmap string node;
  unwritable : gset string
}.

(** The list behind a reference, as [len] and iteration see it. *)
Definition deref (w : World) (l : nat) : list Image := collections w !!! l.

Definition set_files (w : World) (f : gmap string node) : World :=
  {| collections := collections w; files := f; unwritable := unwritable w |}.

Definition set_collection (w : World) (l : nat) (imgs : list Image) : World :=
  {| collections := <[l := imgs]> (collections w);
     files := files w; unwritable := unwritable w |}.

(** The three signals of [ArchiveWriterThread]. *)
Inductive signal :=
| step (i : nat) (img : Image)
| completed
| error (e : exception).

(** ** Generators *)

(** One resumption of a Python generator: it yields a value and is
    suspended again, or it returns ([StopIteration]), or it raises. *)
Inductive resumed (G : Type) :=
| Yield (img : Image) (g : G)
| StopIteration
| Raise (e : exception).
Arguments Yield {G} img g.
Arguments StopIteration {G}.
Arguments Raise {G} e.

Class Generator (G : Type) := gen_next : G → World → resumed G * World.

(** Exhausting a generator on its own: the values it yields and how it
    ends, [None] when [fuel] resumptions were not enough. *)
Fixpoint gen_trace {G} `{Generator G} (fuel : nat) (g : G) (w : World)
  : list Image * option (option exception) * World :=
  match fuel with
  | 0 => ([], None, w)
  | S n =>
      match gen_next g w with
      | (Yield img g', w') =>
          let '(imgs, fin, w'') := gen_trace n g' w' in (img :: imgs, fin, w'')
      | (StopIteration, w') => ([], Some None, w')
      | (Raise e, w') => ([], Some (Some e), w')
      end
  end.

(** ** The Archive Writer *)

(** Where the body of [write_archive] is suspended. *)
Inductive wa_pc :=
| NotStarted
| AtYield (next_index : nat).

Record write_archive_frame := mkFrame {
  wa_archive_file : string;
  wa_images : nat;
  wa_pc_of : wa_pc
}.

Definition append_member (m : member) (n : node) : node :=
  match n with
  | Archive ms c => Archive (ms ++ [m]) c
  | Regular c => Regular c
  end.

Definition close_archive (n : node) : node :=
  match n with
  | Archive ms _ => Archive ms true
  | Regular c => Regular c
  end.

Definition read_file (w : World) (p : string) : option (list byte) :=
  match files w !! p with
  | Some (Regular c) => Some c
  | _ => None
  end.

(** Modelled from the spec: the loop of [utils.write_archive] (see
    [write_archive] below) from item [pos] of the sequence on, up to its
    next yield.  The sequence is read through the reference, at the
    moment the generator is resumed. *)
Definition write_archive_resume (archive_file : string) (images : nat)
    (pos : nat) (w : World) : resumed write_archive_frame * World :=
  match deref w images !! pos with
  | None =>
      (StopIteration, set_files w (alter close_archive archive_file (files w)))
  | Some img =>
      match read_file w (path img) with
      | None => (Raise (OSError (path img)), w)
      | Some bytes =>
          (Yield img (mkFrame archive_file images (AtYield (S pos))),
           set_files w (alter (append_member (mkMember (posix_path img) bytes))
                              archive_file (files w)))
      end
  end.

(** Modelled from the spec: [utils.write_archive] is imported by the file
    but is not part of it.  Following section 4.1 of the spec: the writer
    is a generator over the sequence it was given; it creates or
    overwrites the destination, then for each image in input order reads
    the source file in full, appends it as a new member named by the
    archive-relative path, and yields; the archive is complete and closed
    once the sequence is consumed; the first source that cannot be read,
    or a destination that cannot be opened, raises an I/O error and ends
    the run with the archive as it then is.  The generator yields the
    image itself: [run] pairs it with the index through [enumerate] and
    emits it on a [Signal(int, Image)]. *)
Definition write_archive (archive_file : string) (images : nat)
  : write_archive_frame :=
  mkFrame archive_file images NotStarted.

(** Modelled from the spec: one resumption of [utils.write_archive].
    The first one opens the destination, which creates or overwrites
    it, and enters the loop. *)
#[global] Instance write_archive_next : Generator write_archive_frame :=
  fun g w =>
    match wa_pc_of g with
    | NotStarted =>
        if decide (wa_archive_file g ∈ unwritable w)
        then (Raise (OSError (wa_archive_file g)), w)
        else write_archive_resume (wa_archive_file g) (wa_images g) 0
               (set_files w (<[wa_archive_file g := Archive [] false]> (files w)))
    | AtYield pos =>
        write_archive_resume (wa_archive_file g) (wa_images g) pos w
    end.

(** The archive member the writer makes of [img] in the world [w]. *)
Definition member_of (w : World) (img : Image) : member :=
  mkMember (posix_path img) (default [] (read_file w (path img))).

(** ** The Background Execution Wrapper *)

Module ArchiveWriterThread.

(** [__init__] stores its two arguments as they are: [_images] is the
    reference it was passed, not a copy of the list behind it. *)
Record t := mk {
  _archive_file : string;
  _images : nat
}.

#[global] Instance t_eq_dec : EqDecision t.
Proof. solve_decision. Defined.

(** Where [run] is: in the [for] loop with [enumerate] at [i], returned,
    or ended by an exception that [except Exception] does not catch. *)
Inductive run_pc (G : Type) :=
| Iterating (i : nat) (archive_writer : G)
| Returned
| Uncaught (e : exception).
Arguments Iterating {G} i archive_writer.
Arguments Returned {G}.
Arguments Uncaught {G} e.

(** One iteration of the loop of [run]: resume the writer, then emit. *)
Definition run_step {G} `{Generator G} (pc : run_pc G) (w : World)
  : list signal * run_pc G * World :=
  match pc with
  | Iterating i g =>
      match gen_next g w with
      | (Yield img g', w') => ([step i img], Iterating (S i) g', w')
      | (StopIteration, w') => ([completed], Returned, w')
      | (Raise e, w') =>
          if isinstance_Exception e then ([error e], Returned, w')
          else ([], Uncaught e, w')
      end
  | Returned => ([], Returned, w)
  | Uncaught e => ([], Uncaught e, w)
  end.

(** The loop left alone with the world for [fuel] iterations. *)
Fixpoint run_loop {G} `{Generator G} (fuel : nat) (pc : run_pc G) (w : World)
  : list signal * run_pc G * World :=
  match fuel with
  | 0 => ([], pc, w)
  | S n =>
      let '(out, pc', w') := run_step pc w in
      let '(out', pc'', w'') := run_loop n pc' w' in
      (out ++ out', pc'', w'')
  end.

(** The body of [run] over the generator [archive_writer]. *)
Definition run_body {G} `{Generator G} (fuel : nat) (archive_writer : G)
    (w : World) : list signal * run_pc G * World :=
  run_loop fuel (Iterating 0 archive_writer) w.

Definition run_start (self : t) : run_pc write_archive_frame :=
  Iterating 0 (write_archive (_archive_file self) (_images self)).

(** [run] with nothing else running: one resumption of the writer for
    each image and one more for the end of the sequence. *)
Definition run (self : t) (w : World)
  : list signal * run_pc write_archive_frame * World :=
  run_body (S (length (deref w (_images self))))
           (write_archive (_archive_file self) (_images self)) w.

(** What [run] emits last, and how it ends, when the generator ends
    with [fin]: [None] for a normal return, [Some e] for a raise. *)
Definition last_signal (fin : option exception) : list signal :=
  match fin with
  | None => [completed]
  | Some e => if isinstance_Exception e then [error e] else []
  end.

Definition ended {G} (fin : option exception) : run_pc G :=
  match fin with
  | None => Returned
  | Some e => if isinstance_Exception e then Returned else Uncaught e
  end.

(** [run] is over: it has returned or was ended by an exception. *)
Definition halted {G} (pc : run_pc G) : bool :=
  match pc with
  | Iterating _ _ => false
  | _ => true
  end.

End ArchiveWriterThread.

(** ** The window *)

Module MainWindow.

(** The widgets are modelled by what the handlers set on them: the
    arguments of the last call of each setter ([None]: never called). *)
Record QProgressBar := mkProgressBar {
  hidden : bool;
  maximum : option nat;
  value : option nat
}.

(** [sorted(rows, key=row, reverse=True)]: the larger row first. *)
Definition descending (a b : nat) : Prop := b ≤ a.

#[global] Instance descending_dec : RelDecision descending :=
  λ a b, decide (b ≤ a).

Definition sorted_reverse (rows : list nat) : list nat :=
  merge_sort descending rows.

(** Modelled from the spec: [widgets.ConsensusImageList] is imported by
    the file but is not part of it.  The spec's Image Collection is an
    ordered sequence that accepts removal by index: [pop(i)] for a row
    index [i >= 0] leaves the sequence without its element [i], or
    raises [IndexError] ([None]) when there is no such element. *)
Definition pop (i : nat) (imgs : list Image) : option (list Image) :=
  if decide (i < length imgs) then Some (delete i imgs) else None.

(** The [for] loop of the remove handler: the list after the pops that
    succeeded, and the exception that ended the loop, if any. *)
Fixpoint pop_each (rows : list nat) (imgs : list Image)
  : list Image * option exception :=
  match rows with
  | [] => (imgs, None)
  | r :: rest =>
      match pop r imgs with
      | Some imgs' => pop_each rest imgs'
      | None => (imgs, Some (OtherException "IndexError"))
      end
  end.

(** The sequence [imgs], whose first element is row [i], without the
    rows listed in [rows]: what is to be left of the collection when
    the rows [rows] are removed from it. *)
Fixpoint without_rows_from (i : nat) (rows : list nat) (imgs : list Image)
  : list Image :=
  match imgs with
  | [] => []
  | img :: rest =>
      if decide (i ∈ rows) then without_rows_from (S i) rows rest
      else img :: without_rows_from (S i) rows rest
  end.

Definition without_rows (rows : list nat) (imgs : list Image) : list Image :=
  without_rows_from 0 rows imgs.

(** What a call of [re.compile] does: it returns a compiled pattern, it
    raises [re.error] on a text that is not a regular expression, or it
    raises another exception ([OverflowError] on a repetition count
    that is too large, as in [a{4294967296}]). *)
Inductive compiled (Pattern : Type) :=
| Compiled (posix_path_pattern : Pattern)
| re_error
| Raised (e : exception).
Arguments Compiled {Pattern} posix_path_pattern.
Arguments re_error {Pattern}.
Arguments Raised {Pattern} e.

Section Window.

(** [re.compile] and [str] are Python's and are taken as they come:
    [re_compile text] is what [re.compile(text)] does, and [str e] is
    the text of the exception [e], which depends on the arguments the
    exception was raised with. *)
Context {Pattern : Type} (re_compile : string → compiled Pattern)
        (str : exception → string).

Record t := mk {
  _thread : option ArchiveWriterThread.t;
  _images : nat;
  _posix_path_pattern : option Pattern;
  _regex_line_edit : option string;
  _selected_rows : list nat;
  _remove_selected_rows_button : bool;
  _create_archive_button : bool;
  _status_bar : string;
  _progress_bar : QProgressBar
}.

Definition set_thread (th : option ArchiveWriterThread.t) (self : t) : t :=
  mk th (_images self) (_posix_path_pattern self) (_regex_line_edit self)
     (_selected_rows self) (_remove_selected_rows_button self)
     (_create_archive_button self) (_status_bar self) (_progress_bar self).

Definition set_posix_path_pattern (p : option Pattern) (self : t) : t :=
  mk (_thread self) (_images self) p (_regex_line_edit self)
     (_selected_rows self) (_remove_selected_rows_button self)
     (_create_archive_button self) (_status_bar self) (_progress_bar self).

Definition setStyleSheet (style : string) (self : t) : t :=
  mk (_thread self) (_images self) (_posix_path_pattern self) (Some style)
     (_selected_rows self) (_remove_selected_rows_button self)
     (_create_archive_button self) (_status_bar self) (_progress_bar self).

Definition set_selected_rows (rows : list nat) (self : t) : t :=
  mk (_thread self) (_images self) (_posix_path_pattern self)
     (_regex_line_edit self) rows (_remove_selected_rows_button self)
     (_create_archive_button self) (_status_bar self) (_progress_bar self).

Definition setEnabled (remove create : bool) (self : t) : t :=
  mk (_thread self) (_images self) (_posix_path_pattern self)
     (_regex_line_edit self) (_selected_rows self) remove create
     (_status_bar self) (_progress_bar self).

Definition showMessage (msg : string) (self : t) : t :=
  mk (_thread self) (_images self) (_posix_path_pattern self)
     (_regex_line_edit self) (_selected_rows self)
     (_remove_selected_rows_button self) (_create_archive_button self)
     msg (_progress_bar self).

Definition set_progress_bar (bar : QProgressBar) (self : t) : t :=
  mk (_thread self) (_images self) (_posix_path_pattern self)
     (_regex_line_edit self) (_selected_rows self)
     (_remove_selected_rows_button self) (_create_archive_button self)
     (_status_bar self) bar.

Definition setHidden (h : bool) (self : t) : t :=
  set_progress_bar
    (mkProgressBar h (maximum (_progress_bar self)) (value (_progress_bar self)))
    self.

Definition setMaximum (n : nat) (self : t) : t :=
  set_progress_bar
    (mkProgressBar (hidden (_progress_bar self)) (Some n)
                   (value (_progress_bar self)))
    self.

Definition setValue (n : nat) (self : t) : t :=
  set_progress_bar
    (mkProgressBar (hidden (_progress_bar self))
                   (maximum (_progress_bar self)) (Some n))
    self.

(** [self._thread is None]. *)
Definition thread_is_None (self : t) : bool :=
  match _thread self with
  | None => true
  | Some _ => false
  end.

(** [selectionModel().hasSelection()]: some row is selected. *)
Definition hasSelection (self : t) : bool :=
  match _selected_rows self with
  | [] => false
  | _ :: _ => true
  end.

(** [len(set(img.posix_path for img in self._images))]. *)
Definition distinct_posix_paths (imgs : list Image) : nat :=
  size (list_to_set (posix_path <$> imgs) : gset string).

Definition _update_button_states (w : World) (self : t) : t :=
  let imgs := deref w (_images self) in
  setEnabled
    (thread_is_None self && hasSelection self)
    (thread_is_None self
     && bool_decide (0 < length imgs)
     && bool_decide (distinct_posix_paths imgs = length imgs))
    self.

(** The handler catches [re.error] only: any other exception of
    [re.compile] leaves the handler before a style sheet or a pattern
    is set.  The result is the window and the exception that escaped
    the handler, if one did. *)
Definition _on_regex_line_edit_text_changed (text : string) (self : t)
  : t * option exception :=
  if bool_decide (text ≠ "") then
    match re_compile text with
    | Compiled posix_path_pattern =>
        (set_posix_path_pattern (Some posix_path_pattern)
           (setStyleSheet "background-color: white" self), None)
    | re_error =>
        (set_posix_path_pattern None
           (setStyleSheet "background-color: red" self), None)
    | Raised e => (self, Some e)
    end
  else
    (set_posix_path_pattern None (setStyleSheet "background-color: white" self),
     None).

(** The handler pops from the list object behind [self._images]; it
    returns the exception that escaped it, if one did. *)
Definition _on_remove_selected_rows_button_clicked (self : t) (w : World)
  : World * option exception :=
  let '(imgs, exc) :=
    pop_each (sorted_reverse (_selected_rows self)) (deref w (_images self)) in
  (set_collection w (_images self) imgs, exc).

(** The three slots the create handler connects to the new thread. *)
Definition on_thread_step (i : nat) (img : Image) (self : t) : t :=
  setValue (i + 1) self.

Definition on_thread_completed (w : World) (self : t) : t :=
  _update_button_states w
    (set_thread None (setHidden true (showMessage "Archive created" self))).

(** [f"Error: {e}"]: the text of the exception after the prefix. *)
Definition error_message (e : exception) : string :=
  "Error: " +:+ str e.

Definition on_thread_error (e : exception) (w : World) (self : t) : t :=
  _update_button_states w
    (set_thread None (setHidden true (showMessage (error_message e) self))).

(** [archive_file] is what the save dialog returned (empty when it was
    cancelled).  The result is the window and the thread that was
    started, if one was. *)
Definition _on_create_archive_button_clicked (archive_file : string)
    (w : World) (self : t) : t * option ArchiveWriterThread.t :=
  if bool_decide (archive_file ≠ "") then
    let th := ArchiveWriterThread.mk archive_file (_images self) in
    let self := _update_button_states w (set_thread (Some th) self) in
    let self := showMessage "Creating archive..." self in
    let self := setMaximum (length (deref w (_images self))) self in
    let self := setHidden false self in
    let self := setValue 0 self in
    (self, Some th)
  else (self, None).

(** [__init__], given the reference of the fresh [ConsensusImageList]. *)
Definition __init__ (images : nat) (w : World) : t :=
  _update_button_states w
    (mk None images None None [] false false "Ready"
        (mkProgressBar true None None)).

End Window.

End MainWindow.

Arguments MainWindow.t : clear implicits.

(** ** The application: window, worker threads and the signal queue *)

Module App.

Import ArchiveWriterThread.

(** What can happen next.  The first six are the signals the window
    connects its slots to; a click reaches its slot only when the button
    is enabled.  [collection_mutated] is the list object being changed
    in place by code outside the file (the table view holds the same
    reference); [worker_runs k] is the scheduler letting thread [k]
    execute one iteration of [run]; [signal_delivered] is the event loop
    of the window handing the oldest queued signal to its slot.  An
    exception that escapes a slot is reported and the event loop goes
    on, with the state as the slot left it. *)
Inductive event :=
| textChanged (text : string)
| selectionChanged (rows : list nat)
| modelReset
| dataChanged
| remove_clicked
| create_clicked (archive_file : string)
| collection_mutated (imgs : list Image)
| worker_runs (k : nat)
| signal_delivered.

Section App.

Context {Pattern : Type} (re_compile : string → MainWindow.compiled Pattern)
        (str : exception → string).

Record System := mkSystem {
  window : MainWindow.t Pattern;
  world : World;
  workers : list (run_pc write_archive_frame);
  channel : list signal;
  emitted : list signal
}.

(** A thread whose [run] has ended leaves the list of workers. *)
Definition reschedule (k : nat) (pc : run_pc write_archive_frame)
    (ws : list (run_pc write_archive_frame)) : list (run_pc write_archive_frame) :=
  match pc with
  | Iterating _ _ => <[k := pc]> ws
  | _ => delete k ws
  end.

Definition deliver (sig : signal) (w : World) (win : MainWindow.t Pattern)
  : MainWindow.t Pattern :=
  match sig with
  | step i img => MainWindow.on_thread_step i img win
  | completed => MainWindow.on_thread_completed w win
  | error e => MainWindow.on_thread_error str e w win
  end.

Definition dispatch (ev : event) (s : System) : System :=
  match ev with
  | textChanged text =>
      mkSystem (MainWindow._on_regex_line_edit_text_changed
                  re_compile text (window s)).1
               (world s) (workers s) (channel s) (emitted s)
  | selectionChanged rows =>
      mkSystem (MainWindow._update_button_states (world s)
                  (MainWindow.set_selected_rows rows (window s)))
               (world s) (workers s) (channel s) (emitted s)
  | modelReset | dataChanged =>
      mkSystem (MainWindow._update_button_states (world s) (window s))
               (world s) (workers s) (channel s) (emitted s)
  | remove_clicked =>
      if MainWindow._remove_selected_rows_button (window s) then
        mkSystem (window s)
                 (MainWindow._on_remove_selected_rows_button_clicked
                    (window s) (world s)).1
                 (workers s) (channel s) (emitted s)
      else s
  | create_clicked archive_file =>
      if MainWindow._create_archive_button (window s) then
        let '(win, started) :=
          MainWindow._on_create_archive_button_clicked
            archive_file (world s) (window s) in
        mkSystem win (world s)
                 (workers s ++ from_option (λ th, [run_start th]) [] started)
                 (channel s) (emitted s)
      else s
  | collection_mutated imgs =>
      mkSystem (window s)
               (set_collection (world s) (MainWindow._images (window s)) imgs)
               (workers s) (channel s) (emitted s)
  | worker_runs k =>
      match workers s !! k with
      | Some pc =>
          let '(out, pc', w') := run_step pc (world s) in
          mkSystem (window s) w' (reschedule k pc' (workers s))
                   (channel s ++ out) (emitted s ++ out)
      | None => s
      end
  | signal_delivered =>
      match channel s with
      | sig :: rest =>
          mkSystem (deliver sig (world s) (window s)) (world s) (workers s)
                   rest (emitted s)
      | [] => s
      end
  end.

Definition exec (evs : list event) (s : System) : System :=
  foldl (λ s ev, dispatch ev s) s evs.

(** The application as it starts: an empty collection at reference 0,
    the window built by [__init__], no thread, nothing queued. *)
Definition init (fs : gmap string node) (ro : gset string) : System :=
  let w := mkWorld {[0 := []]} fs ro in
  mkSystem (MainWindow.__init__ 0 w) w [] [] [].

Inductive reachable : System → Prop :=
| reachable_init fs ro : reachable (init fs ro)
| reachable_dispatch ev s : reachable s → reachable (dispatch ev s).

Definition is_mutation (ev : event) : bool :=
  match ev with
  | collection_mutated _ => true
  | _ => false
  end.

Definition is_terminal (sig : signal) : bool :=
  match sig with
  | step _ _ => false
  | completed | error _ => true
  end.

(** A run is in flight before each of the events [evs] happens. *)
Fixpoint in_flight_along (evs : list event) (s : System) : Prop :=
  match evs with
  | [] => True
  | ev :: rest =>
      MainWindow._thread (window s) ≠ None ∧ in_flight_along rest (dispatch ev s)
  end.

(** What holds of the window, the workers and the queue together: with
    the thread field empty nothing runs and nothing is queued; with the
    thread field set both buttons are disabled, and either the one
    worker is in its loop and only steps are queued, or it has returned
    and the queue ends with the one terminal signal. *)
Definition run_invariant (s : System) : Prop :=
  match MainWindow._thread (window s) with
  | None => workers s = [] ∧ channel s = []
  | Some _ =>
      MainWindow._remove_selected_rows_button (window s) = false
      ∧ MainWindow._create_archive_button (window s) = false
      ∧ ((∃ i g, workers s = [Iterating i g]
                 ∧ Forall (λ sig, is_terminal sig = false) (channel s))
         ∨ (workers s = []
            ∧ ∃ pre sig, channel s = pre ++ [sig]
                         ∧ is_terminal sig = true
                         ∧ Forall (λ sig, is_terminal sig = false) pre))
  end.

End App.

End App.

Arguments App.System : clear implicits.
Arguments App.mkSystem {Pattern}.
Arguments App.init {Pattern}.

(** ** What the window shows of a run *)

Module Display.

Import ArchiveWriterThread App.

(** The status message the slot of a terminal signal leaves. *)
Definition end_message (str : exception → string) (sig : signal) : string :=
  match sig with
  | completed => "Archive created"
  | error e => MainWindow.error_message str e
  | step _ _ => ""
  end.

(** The run of the thread [th], started in the world [w0] with [e0]
    emitted before it and [n] images in the collection, as the
    application [s] has it: the worker is [run] after some number of
    iterations; the steps delivered so far are those of [xs], and the
    progress bar counts them; then either the run is in flight, what it
    has emitted beyond [xs] is still queued, and the window shows the
    bar and the message of a run in progress; or its terminal signal
    [sig] was delivered after the steps, and the window shows the end
    message, hides the bar and has its create button as
    [_update_button_states] sets it for no thread. *)
Definition display_invariant {Pattern} (str : exception → string)
    (th : ArchiveWriterThread.t)
    (w0 : World) (e0 : list signal) (n : nat) (s : System Pattern) : Prop :=
  ∃ k xs,
    let '(out, pc, w) := run_loop k (run_start th) w0 in
    let win := window s in
    let bar := MainWindow._progress_bar win in
    world s = w
    ∧ emitted s = e0 ++ out
    ∧ workers s = (if halted pc then [] else [pc])
    ∧ MainWindow.maximum bar = Some n
    ∧ MainWindow.value bar = Some (length xs)
    ∧ ((MainWindow._thread win ≠ None
        ∧ out = imap step xs ++ channel s
        ∧ MainWindow.hidden bar = false
        ∧ MainWindow._status_bar win = "Creating archive...")
       ∨ (MainWindow._thread win = None
          ∧ channel s = []
          ∧ MainWindow.hidden bar = true
          ∧ MainWindow._create_archive_button win
            = bool_decide (0 < length (deref w (MainWindow._images win)))
              && bool_decide
                   (MainWindow.distinct_posix_paths
                      (deref w (MainWindow._images win))
                    = length (deref w (MainWindow._images win)))
          ∧ ∃ sig, is_terminal sig = true
                   ∧ out = imap step xs ++ [sig]
                   ∧ MainWindow._status_bar win = end_message str sig)).

(** How many more values the writer suspended in [g] can yield at most
    in the world [w], plus one when it has not opened its file yet. *)
Definition resumptions_left (g : write_archive_frame) (w : World) : nat :=
  match wa_pc_of g with
  | NotStarted => S (length (deref w (wa_images g)))
  | AtYield pos => length (deref w (wa_images g)) - pos
  end.

End Display.

(** * Properties of [run] *)

Import ArchiveWriterThread.

Section Run.

Context {G : Type} `{Generator G}.

Lemma run_loop_Returned fuel w :
  run_loop fuel (@Returned G) w = ([], Returned, w).
Proof. induction fuel as [|n IH]; simpl; [done | by rewrite IH]. Qed.

Lemma run_loop_Uncaught fuel e w :
  run_loop fuel (@Uncaught G e) w = ([], Uncaught e, w).
Proof. induction fuel as [|n IH]; simpl; [done | by rewrite IH]. Qed.

Lemma run_loop_ended fuel fin w :
  run_loop fuel (ended (G:=G) fin) w = ([], ended fin, w).
Proof.
  destruct fin as [e|]; simpl; [destruct (isinstance_Exception e)|];
    auto using run_loop_Returned, run_loop_Uncaught.
Qed.

(** The loop of [run] emits one [step] for each value the generator
    yields, numbered from where [enumerate] stands, and then what its
    end calls for. *)
Lemma run_loop_gen_trace fuel : ∀ i g w imgs fin w',
  gen_trace fuel g w = (imgs, Some fin, w') →
  run_loop fuel (Iterating i g) w
  = (imap (λ k, step (i + k)) imgs ++ last_signal fin, ended fin, w').
Proof.
  induction fuel as [|n IH]; intros i g w imgs fin w' Htr; simpl in *.
  { congruence. }
  destruct (gen_next g w) as [[img g'| |e] w1] eqn:Hnext.
  - destruct (gen_trace n g' w1) as [[imgs1 fin1] w2] eqn:Htr1.
    simplify_eq. rewrite (IH (S i) _ _ _ _ _ Htr1). simpl.
    do 3 f_equal. { f_equal. lia. }
    f_equal. apply imap_ext. intros k x _. simpl. f_equal. lia.
  - simplify_eq. by rewrite run_loop_Returned.
  - simplify_eq. simpl. destruct (isinstance_Exception e).
    + by rewrite run_loop_Returned.
    + by rewrite run_loop_Uncaught.
Qed.

End Run.

(** * Properties of the writer *)

Section Writer.

Variables (archive_file : string) (images : nat).

Lemma gen_trace_S {G} `{Generator G} n (g : G) w :
  gen_trace (S n) g w =
  match gen_next g w with
  | (Yield img g', w') =>
      let '(imgs, fin, w'') := gen_trace n g' w' in (img :: imgs, fin, w'')
  | (StopIteration, w') => ([], Some None, w')
  | (Raise e, w') => ([], Some (Some e), w')
  end.
Proof. reflexivity. Qed.

Lemma gen_next_AtYield pos w :
  gen_next (mkFrame archive_file images (AtYield pos)) w
  = write_archive_resume archive_file images pos w.
Proof. reflexivity. Qed.

Lemma gen_next_NotStarted w :
  archive_file ∉ unwritable w →
  gen_next (write_archive archive_file images) w
  = write_archive_resume archive_file images 0
      (set_files w (<[archive_file := Archive [] false]> (files w))).
Proof.
  intros Hw. unfold gen_next, write_archive_next, write_archive. simpl.
  by rewrite decide_False.
Qed.

Lemma gen_next_unwritable w :
  archive_file ∈ unwritable w →
  gen_next (write_archive archive_file images) w
  = (Raise (OSError archive_file), w).
Proof.
  intros Hw. unfold gen_next, write_archive_next, write_archive. simpl.
  by rewrite decide_True.
Qed.

(** Once started, the writer ends within one resumption for each image
    left and one more; it leaves the heap as it is; when it returns it
    has yielded all the images left, when it raises it has yielded some
    of the first of them, and what it raises is an [Exception]. *)
Lemma write_archive_trace_resume n : ∀ pos w,
  length (deref w images) ≤ pos + n →
  ∃ imgs fin w',
    gen_trace (S n) (mkFrame archive_file images (AtYield pos)) w
    = (imgs, Some fin, w')
    ∧ collections w' = collections w
    ∧ match fin with
      | None => imgs = drop pos (deref w images)
      | Some e =>
          isinstance_Exception e = true
          ∧ imgs `prefix_of` drop pos (deref w images)
      end.
Proof.
  induction n as [|n IH]; intros pos w Hlen; rewrite gen_trace_S, gen_next_AtYield;
    unfold write_archive_resume;
    destruct (deref w images !! pos) as [img|] eqn:Himg.
  - apply lookup_lt_Some in Himg. lia.
  - eexists _, _, _. split; [reflexivity|]. split; [done|].
    apply lookup_ge_None in Himg. by rewrite drop_ge.
  - destruct (read_file w (path img)) as [bytes|].
    + set (w1 := set_files w _).
      destruct (IH (S pos) w1) as (imgs & fin & w' & Htr & Hcol & Hfin).
      { change (deref w1 images) with (deref w images). lia. }
      rewrite Htr. eexists _, _, _. split; [reflexivity|]. split; [done|].
      change (deref w1 images) with (deref w images) in Hfin.
      rewrite (drop_S _ _ _ Himg).
      destruct fin as [e|]; [|by rewrite Hfin].
      destruct Hfin as [He Hpre]. split; [done|]. by apply prefix_cons.
    + eexists _, _, _. split; [reflexivity|]. split; [done|].
      split; [done|]. apply prefix_nil.
  - eexists _, _, _. split; [reflexivity|]. split; [done|].
    apply lookup_ge_None in Himg. by rewrite drop_ge.
Qed.

End Writer.

Section WriterValid.

Variables (archive_file : string) (images : nat).

Lemma read_file_set_files_ne w f p :
  p ≠ archive_file →
  read_file (set_files w (alter f archive_file (files w))) p = read_file w p.
Proof. intros Hne. unfold read_file. simpl. by rewrite lookup_alter_ne. Qed.

(** With the destination open and every source left a plain file other
    than the destination, the writer yields the images left and closes
    the archive with one more member for each of them, in their order. *)
Lemma write_archive_trace_valid n : ∀ pos w ms,
  length (deref w images) ≤ pos + n →
  files w !! archive_file = Some (Archive ms false) →
  (∀ img, img ∈ drop pos (deref w images) →
     path img ≠ archive_file ∧ is_Some (read_file w (path img))) →
  gen_trace (S n) (mkFrame archive_file images (AtYield pos)) w
  = (drop pos (deref w images), Some None,
     set_files w
       (<[archive_file :=
            Archive (ms ++ (member_of w <$> drop pos (deref w images))) true]>
          (files w))).
Proof.
  induction n as [|n IH]; intros pos w ms Hlen Hdest Hsrc;
    rewrite gen_trace_S, gen_next_AtYield; unfold write_archive_resume;
    destruct (deref w images !! pos) as [img|] eqn:Himg.
  - apply lookup_lt_Some in Himg. lia.
  - apply lookup_ge_None in Himg. rewrite drop_ge by done. simpl.
    rewrite app_nil_r. do 2 f_equal. unfold set_files. f_equal.
    apply map_eq. intros p. rewrite lookup_alter, lookup_insert.
    case_decide; subst; by rewrite ?Hdest.
  - rewrite (drop_S _ _ _ Himg) in Hsrc |- *.
    pose proof (Hsrc img ltac:(left)) as [Hne [bytes Hread]].
    rewrite Hread. set (m := mkMember (posix_path img) bytes).
    set (w1 := set_files w _).
    assert (Hdest1 : files w1 !! archive_file = Some (Archive (ms ++ [m]) false)).
    { unfold w1. simpl. by rewrite lookup_alter_eq, Hdest. }
    assert (Hm : member_of w img = m).
    { unfold member_of, m. by rewrite Hread. }
    assert (Hrest : member_of w1 <$> drop (S pos) (deref w images)
                    = member_of w <$> drop (S pos) (deref w images)).
    { apply list_fmap_ext. intros i img' Hi.
      unfold member_of. f_equal. unfold w1.
      rewrite read_file_set_files_ne; [done|].
      apply Hsrc. right. by eapply list_elem_of_lookup_2. }
    rewrite (IH (S pos) w1 (ms ++ [m])); [| |done|].
    + change (deref w1 images) with (deref w images).
      rewrite Hrest, fmap_cons, Hm, <- app_assoc.
      f_equal. unfold w1, set_files. simpl. f_equal.
      apply map_eq. intros p. rewrite !lookup_insert.
      case_decide; [done|]. by rewrite lookup_alter_ne.
    + change (deref w1 images) with (deref w images). lia.
    + change (deref w1 images) with (deref w images).
      intros img' Hin. destruct (Hsrc img') as [Hne' Hr']; [by right|].
      split; [done|]. unfold w1. by rewrite read_file_set_files_ne.
  - apply lookup_ge_None in Himg. rewrite drop_ge by done. simpl.
    rewrite app_nil_r. do 2 f_equal. unfold set_files. f_equal.
    apply map_eq. intros p. rewrite lookup_alter, lookup_insert.
    case_decide; subst; by rewrite ?Hdest.
Qed.

End WriterValid.

Section RunWriter.

Lemma gen_trace_write_archive n archive_file images w :
  archive_file ∉ unwritable w →
  gen_trace (S n) (write_archive archive_file images) w
  = gen_trace (S n) (mkFrame archive_file images (AtYield 0))
      (set_files w (<[archive_file := Archive [] false]> (files w))).
Proof.
  intros Hw.
  by rewrite !gen_trace_S, gen_next_NotStarted, gen_next_AtYield.
Qed.

(** The writer always ends within the resumptions [run] allows for, and
    what it raises, if it does, is an [Exception]. *)
Lemma write_archive_trace archive_file images w :
  ∃ imgs fin w',
    gen_trace (S (length (deref w images)))
      (write_archive archive_file images) w = (imgs, Some fin, w')
    ∧ collections w' = collections w
    ∧ match fin with
      | None => imgs = deref w images
      | Some e =>
          isinstance_Exception e = true ∧ imgs `prefix_of` deref w images
      end.
Proof.
  destruct (decide (archive_file ∈ unwritable w)) as [Hro|Hrw].
  - rewrite gen_trace_S, gen_next_unwritable by done.
    eexists _, _, _. split; [reflexivity|]. split; [done|].
    split; [done|]. apply prefix_nil.
  - rewrite gen_trace_write_archive by done.
    set (w1 := set_files w _).
    destruct (write_archive_trace_resume archive_file images
                (length (deref w images)) 0 w1)
      as (imgs & fin & w' & Htr & Hcol & Hfin).
    { change (deref w1 images) with (deref w images). lia. }
    change (deref w1 images) with (deref w images) in Hfin.
    rewrite drop_0 in Hfin. by eexists _, _, _.
Qed.

Lemma run_write_archive self w :
  ∃ imgs fin w',
    run self w = (imap step imgs ++ last_signal fin, ended fin, w')
    ∧ collections w' = collections w
    ∧ match fin with
      | None => imgs = deref w (_images self)
      | Some e =>
          isinstance_Exception e = true
          ∧ imgs `prefix_of` deref w (_images self)
      end.
Proof.
  destruct (write_archive_trace (_archive_file self) (_images self) w)
    as (imgs & fin & w' & Htr & Hcol & Hfin).
  exists imgs, fin, w'. split; [|done].
  unfold run, run_body. by rewrite (run_loop_gen_trace _ 0 _ _ _ _ _ Htr).
Qed.

Lemma step_lookup_imap (imgs : list Image) i sig :
  imap step imgs !! i = Some sig → ∃ img, imgs !! i = Some img ∧ sig = step i img.
Proof.
  rewrite list_lookup_imap. destruct (imgs !! i) as [img|]; simpl; [|done].
  intros [= <-]. eauto.
Qed.

Lemma error_not_in_steps (imgs : list Image) e : error e ∉ imap step imgs.
Proof.
  intros [i Hi]%list_elem_of_lookup_1.
  by apply step_lookup_imap in Hi as (img & _ & ?).
Qed.

Lemma completed_not_in_steps (imgs : list Image) : completed ∉ imap step imgs.
Proof.
  intros [i Hi]%list_elem_of_lookup_1.
  by apply step_lookup_imap in Hi as (img & _ & ?).
Qed.

End RunWriter.

(** The run over readable sources into a writable destination. *)
Lemma run_valid (self : ArchiveWriterThread.t) w :
  let imgs := deref w (_images self) in
  _archive_file self ∉ unwritable w →
  (∀ img, img ∈ imgs →
     path img ≠ _archive_file self
     ∧ ∃ content, files w !! path img = Some (Regular content)) →
  ∃ w' ms,
    run self w = (imap step imgs ++ [completed], Returned, w')
    ∧ files w' !! _archive_file self = Some (Archive ms true)
    ∧ Forall2 (λ img m, arcname m = posix_path img
                        ∧ files w !! path img = Some (Regular (data m)))
              imgs ms
    ∧ (∀ p, p ≠ _archive_file self → files w' !! p = files w !! p).
Proof.
  intros imgs Hrw Hsrc.
  assert (Hread : ∀ img, img ∈ imgs →
            ∃ content, files w !! path img = Some (Regular content)
                       ∧ read_file w (path img) = Some content).
  { intros img Hin. destruct (Hsrc img Hin) as [_ [content Hc]].
    exists content. split; [done|]. unfold read_file. by rewrite Hc. }
  set (w1 := set_files w (<[_archive_file self := Archive [] false]> (files w))).
  assert (Hread1 : ∀ img, img ∈ imgs → read_file w1 (path img) = read_file w (path img)).
  { intros img Hin. unfold read_file, w1. simpl.
    rewrite lookup_insert_ne; [done|]. intros Heq. by apply (Hsrc img). }
  pose proof (write_archive_trace_valid (_archive_file self) (_images self)
                (length imgs) 0 w1 []) as Htr.
  change (deref w1 (_images self)) with imgs in Htr. rewrite drop_0 in Htr.
  specialize (Htr ltac:(lia)).
  pose proof (gen_trace_write_archive (length imgs) _ (_images self) w Hrw)
    as Hstart.
  fold w1 in Hstart. rewrite <- Hstart in Htr. clear Hstart.
  specialize (Htr ltac:(unfold w1; simpl; by rewrite lookup_insert_eq)).
  assert (Hsrc1 : ∀ img, img ∈ imgs →
            path img ≠ _archive_file self ∧ is_Some (read_file w1 (path img))).
  { intros img Hin. split; [by apply Hsrc|].
    rewrite Hread1 by done. destruct (Hread img Hin) as (c & _ & ->). eauto. }
  specialize (Htr Hsrc1).
  eexists _, (member_of w1 <$> imgs). split; [|split; [|split]].
  - unfold run, run_body. fold imgs.
    by rewrite (run_loop_gen_trace _ 0 _ _ _ _ _ Htr).
  - simpl. by rewrite lookup_insert_eq.
  - apply Forall2_fmap_r, Forall2_same_length_lookup. split; [done|].
    intros i img img' Hi Hi'. simplify_eq. split; [done|].
    assert (Hin : img ∈ imgs) by by eapply list_elem_of_lookup_2.
    unfold member_of. simpl. rewrite Hread1 by done.
    by destruct (Hread img Hin) as (c & -> & ->).
  - intros p Hp. simpl. by rewrite !lookup_insert_ne.
Qed.

Section Rows.

Import MainWindow.

Lemma deref_set_collection w l imgs : deref (set_collection w l imgs) l = imgs.
Proof. unfold deref, set_collection. simpl. apply lookup_total_insert_eq. Qed.

Lemma deref_set_collection_ne w l l' imgs :
  l' ≠ l → deref (set_collection w l imgs) l' = deref w l'.
Proof.
  intros Hne. unfold deref, set_collection. simpl.
  by apply lookup_total_insert_ne.
Qed.

Lemma without_rows_from_lt i rows imgs :
  (∀ r, r ∈ rows → r < i) → without_rows_from i rows imgs = imgs.
Proof.
  revert i. induction imgs as [|img rest IH]; intros i Hlt; simpl; [done|].
  rewrite decide_False.
  - f_equal. apply IH. intros r Hr. specialize (Hlt r Hr). lia.
  - intros Hi. specialize (Hlt i Hi). lia.
Qed.

Lemma without_rows_from_ext i rows rows' imgs :
  (∀ r, r ∈ rows ↔ r ∈ rows') →
  without_rows_from i rows imgs = without_rows_from i rows' imgs.
Proof.
  intros Hext. revert i. induction imgs as [|img rest IH]; intros i; simpl; [done|].
  rewrite IH. destruct (decide (i ∈ rows)) as [Hi|Hi].
  - rewrite decide_True; [done|]. by apply Hext.
  - rewrite decide_False; [done|]. by rewrite <- Hext.
Qed.

(** Deleting the largest row first is removing it together with the
    others from the sequence as it was. *)
Lemma without_rows_from_delete rest imgs : ∀ i r,
  (∀ r', r' ∈ rest → r' < i + r) →
  r < length imgs →
  without_rows_from i rest (delete r imgs)
  = without_rows_from i ((i + r) :: rest) imgs.
Proof.
  induction imgs as [|img imgs IH]; intros i r Hlt Hr; simpl in Hr; [lia|].
  destruct r as [|r]; simpl.
  - rewrite Nat.add_0_r in *. rewrite decide_True by left.
    rewrite !without_rows_from_lt; [done| |done].
    intros r' [->|Hr']%elem_of_cons; [lia|]. specialize (Hlt r' Hr'). lia.
  - replace (i + S r) with (S i + r) in * by lia.
    rewrite (IH (S i) r) by (done || lia).
    destruct (decide (i ∈ rest)) as [Hi|Hi].
    + rewrite decide_True; [done|]. by right.
    + rewrite decide_False; [done|].
      intros [?|?]%elem_of_cons; [lia|done].
Qed.

Lemma pop_each_descending order : ∀ imgs,
  StronglySorted (λ a b, b < a) order →
  (∀ r, r ∈ order → r < length imgs) →
  pop_each order imgs = (without_rows order imgs, None).
Proof.
  induction order as [|r rest IH]; intros imgs Hsorted Hlt; simpl.
  - unfold without_rows. by rewrite without_rows_from_lt by set_solver.
  - apply StronglySorted_inv in Hsorted as [Hrest Hr].
    rewrite Forall_forall in Hr.
    assert (Hrlen : r < length imgs) by (apply Hlt; left).
    unfold pop. rewrite decide_True by done.
    rewrite IH; [|done|].
    + unfold without_rows. f_equal.
      rewrite (without_rows_from_delete rest imgs 0 r); [done| |done].
      intros r' Hr'. simpl. by apply Hr.
    + intros r' Hr'. rewrite length_delete by by apply lookup_lt_is_Some.
      specialize (Hr r' Hr'). lia.
Qed.

#[local] Instance descending_trans : Transitive descending.
Proof. unfold descending. intros a b c ? ?. lia. Qed.

#[local] Instance descending_total : Total descending.
Proof. unfold descending. intros a b. lia. Qed.

Lemma sorted_reverse_Permutation rows : sorted_reverse rows ≡ₚ rows.
Proof. apply merge_sort_Permutation. Qed.

Lemma StronglySorted_descending_strict order :
  NoDup order →
  StronglySorted descending order →
  StronglySorted (λ a b, b < a) order.
Proof.
  induction order as [|r rest IH]; intros Hnd Hs; [constructor|].
  apply NoDup_cons in Hnd as [Hr Hnd].
  apply StronglySorted_inv in Hs as [Hs Hall].
  constructor; [by apply IH|].
  rewrite Forall_forall in Hall |- *. intros r' Hr'.
  specialize (Hall r' Hr'). unfold descending in Hall.
  assert (r' ≠ r) by (intros ->; done). lia.
Qed.

Lemma sorted_reverse_strict rows :
  NoDup rows → StronglySorted (λ a b, b < a) (sorted_reverse rows).
Proof.
  intros Hnd. apply StronglySorted_descending_strict.
  - by rewrite sorted_reverse_Permutation.
  - apply StronglySorted_merge_sort; apply _.
Qed.

Lemma pop_each_sorted_reverse rows imgs :
  NoDup rows →
  (∀ r, r ∈ rows → r < length imgs) →
  pop_each (sorted_reverse rows) imgs = (without_rows rows imgs, None).
Proof.
  intros Hnd Hlt. rewrite pop_each_descending.
  - f_equal. apply without_rows_from_ext. intros r.
    by rewrite sorted_reverse_Permutation.
  - by apply sorted_reverse_strict.
  - intros r Hr. apply Hlt. by rewrite <- (sorted_reverse_Permutation rows).
Qed.

End Rows.

(** * Properties of the application *)

Section AppLemmas.

Import App.

Context {Pattern : Type} (re_compile : string → MainWindow.compiled Pattern)
        (str : exception → string).

Implicit Types (s : System Pattern) (win : MainWindow.t Pattern).

Lemma update_button_states_thread w win :
  MainWindow._thread (MainWindow._update_button_states w win)
  = MainWindow._thread win.
Proof. reflexivity. Qed.

Lemma update_button_states_running w win :
  MainWindow._thread win ≠ None →
  MainWindow._remove_selected_rows_button
    (MainWindow._update_button_states w win) = false
  ∧ MainWindow._create_archive_button
      (MainWindow._update_button_states w win) = false.
Proof.
  intros Hth. unfold MainWindow._update_button_states, MainWindow.thread_is_None.
  simpl. by destruct (MainWindow._thread win).
Qed.

End AppLemmas.

Section WriterSteps.

Import App.

Lemma size_list_to_set_le (l : list string) :
  size (list_to_set l : gset string) ≤ length l.
Proof.
  induction l as [|x l IH].
  - rewrite list_to_set_nil, size_empty. done.
  - rewrite list_to_set_cons. cbn [length].
    rewrite size_union_alt, size_singleton.
    pose proof (subseteq_size (list_to_set l ∖ {[x]}) (list_to_set l : gset string)) as Hs.
    assert (size (list_to_set l ∖ {[x]} : gset string) ≤ size (list_to_set l : gset string)).
    { apply Hs. intros y Hy. by apply elem_of_difference in Hy as [? _]. }
    lia.
Qed.

Lemma size_list_to_set_NoDup (l : list string) :
  size (list_to_set l : gset string) = length l → NoDup l.
Proof.
  induction l as [|x l IH]; intros Hsize; [constructor|].
  rewrite list_to_set_cons in Hsize. cbn [length] in Hsize.
  pose proof (size_list_to_set_le l) as Hle.
  destruct (decide (x ∈ l)) as [Hin|Hnin].
  - rewrite (subseteq_union_1_L ({[x]} : gset string) (list_to_set l)) in Hsize.
    + lia.
    + by apply singleton_subseteq_l, elem_of_list_to_set.
  - rewrite size_union, size_singleton in Hsize
      by by rewrite disjoint_singleton_l, elem_of_list_to_set.
    constructor; [done|]. apply IH. lia.
Qed.

(** The check of the create button is the absence of duplicates among
    the archive-relative paths. *)
Lemma distinct_posix_paths_NoDup (imgs : list Image) :
  MainWindow.distinct_posix_paths imgs = length imgs
  ↔ NoDup (posix_path <$> imgs).
Proof.
  unfold MainWindow.distinct_posix_paths. split.
  - intros Hsize. apply size_list_to_set_NoDup. by rewrite length_fmap.
  - intros Hnd. by rewrite size_list_to_set, length_fmap.
Qed.


Lemma write_archive_next_collections g w r w' :
  gen_next g w = (r, w') → collections w' = collections w.
Proof.
  unfold gen_next, write_archive_next, write_archive_resume.
  repeat case_match; intros; by simplify_eq.
Qed.

Lemma write_archive_next_Exception g w e w' :
  gen_next g w = (Raise e, w') → isinstance_Exception e = true.
Proof.
  unfold gen_next, write_archive_next, write_archive_resume.
  repeat case_match; intros; by simplify_eq.
Qed.

(** One iteration of [run] over the writer: the loop goes on after a
    step, or it has returned after a terminal signal. *)
Lemma run_step_write_archive i (g : write_archive_frame) w out pc w' :
  ArchiveWriterThread.run_step (Iterating i g) w = (out, pc, w') →
  collections w' = collections w
  ∧ ((∃ img g', out = [step i img] ∧ pc = Iterating (S i) g')
     ∨ (∃ sig, out = [sig] ∧ is_terminal sig = true ∧ pc = Returned)).
Proof.
  simpl. destruct (gen_next g w) as [[img g'| |e] w1] eqn:Hnext.
  - intros [= <- <- <-]. split; [by eapply write_archive_next_collections|].
    left. eauto.
  - intros [= <- <- <-]. split; [by eapply write_archive_next_collections|].
    right. eauto.
  - rewrite (write_archive_next_Exception _ _ _ _ Hnext).
    intros [= <- <- <-]. split; [by eapply write_archive_next_collections|].
    right. eauto.
Qed.

End WriterSteps.

Section Invariant.

Import App.

Context {Pattern : Type} (re_compile : string → MainWindow.compiled Pattern)
        (str : exception → string).

Implicit Types (s : System Pattern) (win : MainWindow.t Pattern).

(** The handler of the filter box sets the pattern and the style sheet
    of the box and nothing else. *)
Lemma text_changed_frame text win :
  let win' :=
    (MainWindow._on_regex_line_edit_text_changed re_compile text win).1 in
  MainWindow._thread win' = MainWindow._thread win
  ∧ MainWindow._images win' = MainWindow._images win
  ∧ MainWindow._selected_rows win' = MainWindow._selected_rows win
  ∧ MainWindow._remove_selected_rows_button win'
    = MainWindow._remove_selected_rows_button win
  ∧ MainWindow._create_archive_button win'
    = MainWindow._create_archive_button win
  ∧ MainWindow._status_bar win' = MainWindow._status_bar win
  ∧ MainWindow._progress_bar win' = MainWindow._progress_bar win.
Proof.
  unfold MainWindow._on_regex_line_edit_text_changed.
  destruct (bool_decide (text ≠ "")); [destruct (re_compile text)|]; done.
Qed.

Lemma run_invariant_init fs ro : run_invariant (init (Pattern:=Pattern) fs ro).
Proof. by split. Qed.

Lemma run_invariant_update s :
  run_invariant s →
  run_invariant
    (mkSystem (MainWindow._update_button_states (world s) (window s))
              (world s) (workers s) (channel s) (emitted s)).
Proof.
  unfold run_invariant. cbn [window world workers channel].
  rewrite update_button_states_thread.
  destruct (MainWindow._thread (window s)) as [th|] eqn:Hth; [|done].
  intros (_ & _ & Hrest).
  destruct (update_button_states_running (world s) (window s)) as [-> ->];
    [by rewrite Hth | done].
Qed.

Lemma run_invariant_idle s :
  run_invariant s →
  MainWindow._remove_selected_rows_button (window s) = true
  ∨ MainWindow._create_archive_button (window s) = true →
  MainWindow._thread (window s) = None ∧ workers s = [] ∧ channel s = [].
Proof.
  unfold run_invariant.
  destruct (MainWindow._thread (window s)) as [th|].
  - intros (Hr & Hc & _) [?|?]; congruence.
  - by intros [-> ->] _.
Qed.

Lemma run_invariant_dispatch ev s :
  run_invariant s → run_invariant (dispatch re_compile str ev s).
Proof.
  intros Hinv. destruct ev as [text|rows| | | |archive_file|imgs|k|]; simpl.
  - (* textChanged *)
    destruct (text_changed_frame text (window s))
      as (Hth & _ & _ & Hr & Hc & _).
    unfold run_invariant in *. cbn [window workers channel].
    by rewrite Hth, Hr, Hc.
  - (* selectionChanged *)
    apply (run_invariant_update
             (mkSystem (MainWindow.set_selected_rows rows (window s))
                       (world s) (workers s) (channel s) (emitted s))).
    exact Hinv.
  - by apply run_invariant_update.
  - by apply run_invariant_update.
  - (* remove_clicked *)
    destruct (MainWindow._remove_selected_rows_button (window s)) eqn:Hb; [|done].
    destruct (run_invariant_idle s Hinv) as (Hth & Hw & Hc); [by left|].
    unfold run_invariant. simpl. by rewrite Hth.
  - (* create_clicked *)
    destruct (MainWindow._create_archive_button (window s)) eqn:Hb; [|done].
    destruct (run_invariant_idle s Hinv) as (Hth & Hw & Hc); [by right|].
    unfold MainWindow._on_create_archive_button_clicked.
    case_bool_decide.
    + unfold run_invariant. simpl. rewrite Hw, Hc. simpl.
      split; [done|]. split; [|left; eauto].
      unfold MainWindow.thread_is_None. done.
    + unfold run_invariant. simpl. rewrite Hth, Hw, Hc. done.
  - (* collection_mutated *)
    exact Hinv.
  - (* worker_runs *)
    destruct (workers s !! k) as [pc|] eqn:Hk; [|done].
    unfold run_invariant in Hinv.
    destruct (MainWindow._thread (window s)) as [th|] eqn:Hth.
    + destruct Hinv as (Hr & Hc & [(i & g & Hw & Hch)|(Hw & _)]).
      * rewrite Hw in Hk. destruct k as [|k]; [|done].
        injection Hk as <-.
        destruct (ArchiveWriterThread.run_step (Iterating i g) (world s))
          as [[out pc'] w'] eqn:Hstep.
        apply run_step_write_archive in Hstep
          as (_ & [(img & g' & -> & ->)|(sig & -> & Hsig & ->)]).
        -- unfold run_invariant. simpl. rewrite Hth, Hw. simpl.
           split; [done|]. split; [done|]. left. eexists _, _. split; [done|].
           apply Forall_app. split; [done|]. by constructor.
        -- unfold run_invariant. simpl. rewrite Hth, Hw. simpl.
           split; [done|]. split; [done|]. right. split; [done|]. eauto.
      * by rewrite Hw in Hk.
    + destruct Hinv as [Hw _]. by rewrite Hw in Hk.
  - (* signal_delivered *)
    destruct (channel s) as [|sig rest] eqn:Hch; [done|].
    unfold run_invariant in Hinv.
    destruct (MainWindow._thread (window s)) as [th|] eqn:Hth;
      [|destruct Hinv; congruence].
    destruct Hinv as (Hr & Hc & [(i & g & Hw & Hsteps)|(Hw & pre & last & Hq & Hlast & Hpre)]).
    + rewrite Hch in Hsteps. apply Forall_cons in Hsteps as [Hsig Hrest].
      destruct sig as [j img| |e]; try done.
      unfold run_invariant. simpl. rewrite Hth. eauto 10.
    + rewrite Hch in Hq. destruct pre as [|sig' pre]; simpl in Hq; simplify_eq.
      * unfold run_invariant.
        destruct last as [j img| |e]; try done; simpl; by rewrite Hw.
      * apply Forall_cons in Hpre as [Hsig Hrest].
        destruct sig' as [j img| |e]; try done.
        unfold run_invariant. simpl. rewrite Hth.
        split; [done|]. split; [done|]. right. split; [done|]. eauto.
Qed.

Lemma reachable_invariant s : reachable re_compile str s → run_invariant s.
Proof.
  induction 1 as [fs ro|ev s _ IH].
  - apply run_invariant_init.
  - by apply run_invariant_dispatch.
Qed.

End Invariant.

(** * A run in flight, step by step *)

Section Stepwise.

Context {G : Type} `{Generator G}.

Lemma run_step_halted (pc : run_pc G) w :
  halted pc = true → run_step pc w = ([], pc, w).
Proof. by destruct pc. Qed.

(** One more iteration at the end of the loop. *)
Lemma run_loop_snoc k : ∀ (pc : run_pc G) w,
  run_loop (S k) pc w
  = let '(out, pc', w') := run_loop k pc w in
    let '(out', pc'', w'') := run_step pc' w' in
    (out ++ out', pc'', w'').
Proof.
  induction k as [|k IH]; intros pc w.
  - simpl. destruct (run_step pc w) as [[out pc'] w']. by rewrite app_nil_r.
  - change (run_loop (S (S k)) pc w)
      with (let '(out, pc', w') := run_step pc w in
            let '(out', pc'', w'') := run_loop (S k) pc' w' in
            (out ++ out', pc'', w'')).
    change (run_loop (S k) pc w)
      with (let '(out, pc', w') := run_step pc w in
            let '(out', pc'', w'') := run_loop k pc' w' in
            (out ++ out', pc'', w'')).
    destruct (run_step pc w) as [[out1 pc1] w1].
    rewrite IH. destruct (run_loop k pc1 w1) as [[out2 pc2] w2].
    destruct (run_step pc2 w2) as [[out3 pc3] w3]. by rewrite app_assoc.
Qed.

(** Once [run] is over, more fuel changes nothing. *)
Lemma run_loop_halted_stable k k' (pc : run_pc G) w out pc' w' :
  run_loop k pc w = (out, pc', w') →
  halted pc' = true →
  k ≤ k' →
  run_loop k' pc w = (out, pc', w').
Proof.
  intros Hk Hhalt Hle. induction Hle as [|k' Hle IH]; [done|].
  rewrite run_loop_snoc, IH, run_step_halted by done. by rewrite app_nil_r.
Qed.

Lemma run_loop_halted_unique k k' (pc : run_pc G) w :
  halted (run_loop k pc w).1.2 = true →
  halted (run_loop k' pc w).1.2 = true →
  run_loop k pc w = run_loop k' pc w.
Proof.
  intros Hk Hk'.
  destruct (run_loop k pc w) as [[out1 pc1] w1] eqn:H1.
  destruct (run_loop k' pc w) as [[out2 pc2] w2] eqn:H2.
  destruct (Nat.le_ge_cases k k') as [Hle|Hle].
  - rewrite (run_loop_halted_stable k k' _ _ _ _ _ H1 Hk Hle) in H2. congruence.
  - rewrite (run_loop_halted_stable k' k _ _ _ _ _ H2 Hk' Hle) in H1. congruence.
Qed.

End Stepwise.

Lemma run_halted (self : ArchiveWriterThread.t) w :
  ArchiveWriterThread.halted (ArchiveWriterThread.run self w).1.2 = true.
Proof.
  destruct (run_write_archive self w) as (imgs & fin & w' & -> & _ & Hfin).
  simpl. destruct fin as [e|]; [|done]. simpl.
  by destruct (isinstance_Exception e).
Qed.

Section InFlight.

Import App.

Context {Pattern : Type} (re_compile : string → MainWindow.compiled Pattern)
        (str : exception → string).

Implicit Types (s : System Pattern).

(** While a run is in flight no event but a mutation from outside
    changes the heap of collections. *)
Lemma dispatch_in_flight_collections ev s :
  run_invariant s →
  MainWindow._thread (window s) ≠ None →
  is_mutation ev = false →
  collections (world (dispatch re_compile str ev s)) = collections (world s).
Proof.
  intros Hinv Hth Hev. unfold run_invariant in Hinv.
  destruct (MainWindow._thread (window s)) as [th|]; [|done].
  destruct Hinv as (Hr & Hc & Hrun).
  destruct ev as [text|rows| | | |archive_file|imgs|k|]; simpl; try done.
  - by rewrite Hr.
  - by rewrite Hc.
  - destruct (workers s !! k) as [pc|] eqn:Hk; [|done].
    destruct Hrun as [(i & g & Hw & _)|(Hw & _)]; rewrite Hw in Hk; [|done].
    destruct k as [|k]; [|done]. injection Hk as <-.
    destruct (ArchiveWriterThread.run_step (Iterating i g) (world s))
      as [[out pc'] w'] eqn:Hstep.
    by apply run_step_write_archive in Hstep as [Hcol _].
  - by destruct (channel s).
Qed.

Lemma create_clicked_world archive_file s :
  world (dispatch re_compile str (create_clicked archive_file) s) = world s.
Proof.
  simpl. destruct (MainWindow._create_archive_button (window s)); [|done].
  by destruct (MainWindow._on_create_archive_button_clicked _ _ _).
Qed.

Lemma exec_in_flight_collections evs : ∀ s,
  run_invariant s →
  Forall (λ ev, is_mutation ev = false) evs →
  in_flight_along re_compile str evs s →
  collections (world (exec re_compile str evs s)) = collections (world s).
Proof.
  induction evs as [|ev evs IH]; intros s Hinv Hevs Hfl; [done|].
  apply Forall_cons in Hevs as [Hev Hevs]. destruct Hfl as [Hth Hfl].
  change (exec re_compile str (ev :: evs) s)
    with (exec re_compile str evs (dispatch re_compile str ev s)).
  rewrite IH; [|by apply run_invariant_dispatch|done|done].
  by apply dispatch_in_flight_collections.
Qed.

(** How far the one worker of a run in flight has come: the world, the
    signals emitted and the worker are those of [run] after [k]
    iterations from the world in which the run started. *)
Lemma dispatch_in_flight_run th w0 e0 ev s k :
  run_invariant s →
  MainWindow._thread (window s) ≠ None →
  is_mutation ev = false →
  (let '(out, pc, w) := ArchiveWriterThread.run_loop k (run_start th) w0 in
   world s = w ∧ emitted s = e0 ++ out
   ∧ workers s = if ArchiveWriterThread.halted pc then [] else [pc]) →
  ∃ k',
    let '(out, pc, w) := ArchiveWriterThread.run_loop k' (run_start th) w0 in
    world (dispatch re_compile str ev s) = w
    ∧ emitted (dispatch re_compile str ev s) = e0 ++ out
    ∧ workers (dispatch re_compile str ev s)
      = if ArchiveWriterThread.halted pc then [] else [pc].
Proof.
  intros Hinv Hth Hev Hsim. unfold run_invariant in Hinv.
  destruct (MainWindow._thread (window s)) as [th'|]; [|done].
  destruct Hinv as (Hr & Hc & Hrun).
  destruct ev as [text|rows| | | |archive_file|imgs|j|];
    try done; try (by exists k).
  - exists k. simpl. by rewrite Hr.
  - exists k. simpl. by rewrite Hc.
  - simpl. destruct (workers s !! j) as [pc|] eqn:Hj; [|by exists k].
    destruct (ArchiveWriterThread.run_loop k (run_start th) w0)
      as [[out pck] wk] eqn:Hk.
    destruct Hsim as (Hw & He & Hws).
    destruct (ArchiveWriterThread.halted pck) eqn:Hhalt;
      rewrite Hws in Hj; [done|].
    destruct j as [|j]; [|done]. injection Hj as <-.
    exists (S k). rewrite run_loop_snoc, Hk, Hw.
    destruct (ArchiveWriterThread.run_step pck wk) as [[out' pc'] w'] eqn:Hstep.
    simpl. rewrite He, Hws, app_assoc.
    split; [done|]. split; [done|]. by destruct pc'.
  - exists k. simpl. by destruct (channel s).
Qed.

Lemma exec_in_flight_run th w0 e0 evs : ∀ s k,
  run_invariant s →
  Forall (λ ev, is_mutation ev = false) evs →
  in_flight_along re_compile str evs s →
  (let '(out, pc, w) := ArchiveWriterThread.run_loop k (run_start th) w0 in
   world s = w ∧ emitted s = e0 ++ out
   ∧ workers s = if ArchiveWriterThread.halted pc then [] else [pc]) →
  ∃ k',
    let '(out, pc, w) := ArchiveWriterThread.run_loop k' (run_start th) w0 in
    world (exec re_compile str evs s) = w
    ∧ emitted (exec re_compile str evs s) = e0 ++ out
    ∧ workers (exec re_compile str evs s)
      = if ArchiveWriterThread.halted pc then [] else [pc].
Proof.
  induction evs as [|ev evs IH]; intros s k Hinv Hevs Hfl Hsim; [by exists k|].
  apply Forall_cons in Hevs as [Hev Hevs]. destruct Hfl as [Hth Hfl].
  destruct (dispatch_in_flight_run th w0 e0 ev s k Hinv Hth Hev Hsim)
    as [k1 Hsim1].
  change (exec re_compile str (ev :: evs) s)
    with (exec re_compile str evs (dispatch re_compile str ev s)).
  by apply (IH _ k1); [apply run_invariant_dispatch| | |].
Qed.

Lemma exec_invariant evs : ∀ s,
  run_invariant s → run_invariant (exec re_compile str evs s).
Proof.
  induction evs as [|ev evs IH]; intros s Hinv; [done|].
  apply IH. by apply run_invariant_dispatch.
Qed.

Lemma reachable_exec evs : ∀ s,
  reachable re_compile str s → reachable re_compile str (exec re_compile str evs s).
Proof.
  induction evs as [|ev evs IH]; intros s Hs; [done|].
  apply IH. by constructor.
Qed.

End InFlight.

(** * The claims *)

Import App.

(** C1.  A run of [ArchiveWriterThread.run] over a sequence of N images
    that emits no error notification emits exactly the step
    notifications 0 to N-1, in this order and each with the image at its
    index in the sequence, and after them one completed notification,
    which is the last thing it emits. *)
Theorem run_steps_then_completed (self : ArchiveWriterThread.t) w out pc w' :
  run self w = (out, pc, w') →
  (∀ e, error e ∉ out) →
  let imgs := deref w (_images self) in
  out = imap step imgs ++ [completed]
  ∧ pc = Returned
  ∧ length out = S (length imgs)
  ∧ (∀ i img, imgs !! i = Some img → out !! i = Some (step i img))
  ∧ out !! (length imgs) = Some completed.
Proof.
  intros Hrun Hnoerr imgs.
  destruct (run_write_archive self w) as (ys & fin & w1 & Hrun' & _ & Hfin).
  rewrite Hrun in Hrun'. injection Hrun' as -> -> ->.
  destruct fin as [e|].
  { destruct Hfin as [He _]. exfalso. apply (Hnoerr e).
    simpl. rewrite He. apply elem_of_app. right. by left. }
  subst ys. fold imgs. simpl. split; [done|]. split; [done|].
  split; [by rewrite length_app, length_imap, Nat.add_1_r|].
  split.
  - intros i img Hi. rewrite lookup_app_l.
    + by rewrite list_lookup_imap, Hi.
    + rewrite length_imap. by eapply lookup_lt_Some.
  - rewrite lookup_app_r; rewrite length_imap; [|done].
    by rewrite Nat.sub_diag.
Qed.

(** A run over two readable files. *)
Lemma run_steps_then_completed_witness :
  let a := mkImage "photo_a.jpg" "trip/a.jpg" in
  let b := mkImage "photo_b.jpg" "trip/b.jpg" in
  let self := ArchiveWriterThread.mk "out.tar.gz" 0 in
  let w := mkWorld {[0 := [a; b]]}
             {["photo_a.jpg" := Regular [x01]; "photo_b.jpg" := Regular [x02]]}
             ∅ in
  (run self w).1.1 = [step 0 a; step 1 b; completed].
Proof.
  intros a b self w.
  assert (Hout : (run self w).1.1 = [step 0 a; step 1 b; completed])
    by (vm_compute; reflexivity).
  refine (proj1 (run_steps_then_completed self w
                   (run self w).1.1 (run self w).1.2 (run self w).2 _ _)).
  - by destruct (run self w) as [[? ?] ?].
  - intros e. rewrite Hout. intros Hin.
    repeat (apply elem_of_cons in Hin as [Hin|Hin]; [discriminate|]).
    by apply elem_of_nil in Hin.
Defined.

(** C2.  A run in which the writer, whatever generator it is, raises an
    error (an exception of class [Exception]) after having yielded
    [imgs], emits the step notifications for [imgs] and then one error
    notification carrying that error: it is the only error notification
    and the last notification, there is no completed notification, and
    [run] has returned, so that nothing is resumed or emitted again. *)
Theorem run_error_is_last {G} `{Generator G} fuel (archive_writer : G)
    w imgs e w' :
  gen_trace fuel archive_writer w = (imgs, Some (Some e), w') →
  isinstance_Exception e = true →
  let out := (run_body fuel archive_writer w).1.1 in
  run_body fuel archive_writer w = (imap step imgs ++ [error e], Returned, w')
  ∧ (∀ i e', out !! i = Some (error e') → i = length imgs ∧ e' = e)
  ∧ (completed ∉ out)
  ∧ last out = Some (error e)
  ∧ (∀ n, run_loop n (Returned (G:=G)) w' = ([], Returned, w')).
Proof.
  intros Htr He out. unfold out, run_body.
  rewrite (run_loop_gen_trace _ 0 _ _ _ _ _ Htr). simpl. rewrite He.
  split; [done|]. split; [|split; [|split]].
  - intros i e' Hi. apply lookup_app_Some in Hi as [Hi|[Hlen Hi]].
    + by apply step_lookup_imap in Hi as (img & _ & ?).
    + rewrite length_imap in Hlen, Hi.
      destruct (i - length imgs) as [|k] eqn:Hk; simpl in Hi; [|done].
      injection Hi as <-. split; [lia|done].
  - intros [Hin|Hin]%elem_of_app.
    + by apply completed_not_in_steps in Hin.
    + by apply list_elem_of_singleton in Hin.
  - by rewrite last_snoc.
  - intros n. apply run_loop_Returned.
Qed.

(** A run whose second source file is missing. *)
Lemma run_error_is_last_witness :
  let a := mkImage "photo_a.jpg" "trip/a.jpg" in
  let b := mkImage "missing.jpg" "trip/b.jpg" in
  let self := ArchiveWriterThread.mk "out.tar.gz" 0 in
  let w := mkWorld {[0 := [a; b; a]]} {["photo_a.jpg" := Regular [x01]]} ∅ in
  (run self w).1 = ([step 0 a; error (OSError "missing.jpg")], Returned).
Proof.
  intros a b self w.
  pose (w' := (gen_trace 4 (write_archive "out.tar.gz" 0) w).2).
  refine (f_equal fst (proj1 (run_error_is_last 4 (write_archive "out.tar.gz" 0)
                     w [a] (OSError "missing.jpg") w' _ _))).
  - vm_compute. reflexivity.
  - reflexivity.
Defined.

(** C3.  When the destination can be opened and every source is a plain
    file of the file system, other than the destination, the run
    completes and leaves at the destination a closed archive with
    exactly one member for each image of the sequence, in the order of
    the sequence, each named by the archive-relative path of its image
    and holding the very bytes the file system has at the source path
    of its image.  This holds for every sequence, and so for the
    non-empty ones without duplicates. *)
Theorem write_archive_members (self : ArchiveWriterThread.t) w :
  let imgs := deref w (_images self) in
  _archive_file self ∉ unwritable w →
  (∀ img, img ∈ imgs →
     path img ≠ _archive_file self
     ∧ ∃ content, files w !! path img = Some (Regular content)) →
  ∃ w' ms,
    run self w = (imap step imgs ++ [completed], Returned, w')
    ∧ files w' !! _archive_file self = Some (Archive ms true)
    ∧ Forall2 (λ img m, arcname m = posix_path img
                        ∧ files w !! path img = Some (Regular (data m)))
              imgs ms
    ∧ (∀ p, p ≠ _archive_file self → files w' !! p = files w !! p).
Proof. exact (run_valid self w). Qed.

(** The example of the spec: two photographs, of one and of two bytes,
    into one archive. *)
Lemma write_archive_members_witness :
  let a := mkImage "photo_a.jpg" "trip/a.jpg" in
  let b := mkImage "photo_b.jpg" "trip/b.jpg" in
  let self := ArchiveWriterThread.mk "out.tar.gz" 0 in
  let w := mkWorld {[0 := [a; b]]}
             {["photo_a.jpg" := Regular [x01];
               "photo_b.jpg" := Regular [x02; x03]]}
             ∅ in
  ∃ w',
    run self w = ([step 0 a; step 1 b; completed], Returned, w')
    ∧ files w' !! "out.tar.gz"
      = Some (Archive [mkMember "trip/a.jpg" [x01];
                       mkMember "trip/b.jpg" [x02; x03]] true)
    ∧ files w' !! "photo_a.jpg" = Some (Regular [x01])
    ∧ files w' !! "photo_b.jpg" = Some (Regular [x02; x03]).
Proof.
  intros a b self w.
  destruct (write_archive_members self w) as (w' & ms & Hrun & Har & Hms & Hrest).
  - vm_compute. set_solver.
  - intros img Hin.
    change (img ∈ [a; b]) in Hin.
    apply elem_of_cons in Hin as [Himg | Hin];
      [| apply list_elem_of_singleton in Hin as Himg];
      rewrite Himg; (split; [discriminate | vm_compute; eauto]).
  - exists w'. split; [exact Hrun|].
    change (deref w (_images self)) with [a; b] in Hms.
    apply Forall2_cons_inv_l in Hms as ([na da] & ms1 & [Hna Hda] & Hms & ->).
    apply Forall2_cons_inv_l in Hms as ([nb db] & ms2 & [Hnb Hdb] & Hms & ->).
    apply Forall2_nil_inv_l in Hms as ->.
    simpl in Hna, Hnb, Hda, Hdb.
    vm_compute in Hda. vm_compute in Hdb.
    injection Hda as <-. injection Hdb as <-. subst na nb.
    split; [exact Har|].
    split; (rewrite Hrest by discriminate; vm_compute; reflexivity).
Defined.

(** C4, as the code has it.  The thread is given the reference of the
    collection of the window, not a copy.  While its run is in flight
    the remove button is disabled, and as long as nothing outside the
    window mutates the collection, the run is at every moment [run]
    after some number of iterations from the world in which it was
    started; once its terminal signal is delivered, the signals it has
    emitted and the world it leaves are those of [run] over the
    sequence as it was when the run started. *)
Theorem in_flight_run_is_start_time_run {Pattern}
    (re_compile : string → MainWindow.compiled Pattern)
    (str : exception → string) (s0 : System Pattern)
    (archive_file : string) (th : ArchiveWriterThread.t) (evs : list event) :
  reachable re_compile str s0 →
  MainWindow._thread (window s0) = None →
  let s1 := dispatch re_compile str (create_clicked archive_file) s0 in
  MainWindow._thread (window s1) = Some th →
  Forall (λ ev, is_mutation ev = false) evs →
  in_flight_along re_compile str evs s1 →
  let s2 := exec re_compile str evs s1 in
  _images th = MainWindow._images (window s0)
  ∧ (MainWindow._thread (window s2) ≠ None →
     dispatch re_compile str remove_clicked s2 = s2)
  ∧ (∃ k, emitted s2
          = emitted s1 ++ (ArchiveWriterThread.run_loop k (run_start th) (world s1)).1.1
          ∧ world s2
            = (ArchiveWriterThread.run_loop k (run_start th) (world s1)).2)
  ∧ (MainWindow._thread (window s2) = None →
     emitted s2 = emitted s1 ++ (run th (world s1)).1.1
     ∧ world s2 = (run th (world s1)).2).
Proof.
  intros Hreach Hidle s1 Hth Hevs Hfl s2.
  pose proof (reachable_invariant re_compile str s0 Hreach) as Hinv0.
  assert (Hinv1 : run_invariant s1) by by apply run_invariant_dispatch.
  assert (Hinv2 : run_invariant s2) by by apply exec_invariant.
  (* the click has started the thread [th] on the collection itself *)
  assert (Hstart : th = ArchiveWriterThread.mk archive_file
                          (MainWindow._images (window s0))
                   ∧ workers s1 = [run_start th] ∧ world s1 = world s0).
  { unfold run_invariant in Hinv0. rewrite Hidle in Hinv0.
    destruct Hinv0 as [Hw0 _]. unfold s1 in Hth |- *. simpl in Hth |- *.
    destruct (MainWindow._create_archive_button (window s0));
      [|congruence].
    unfold MainWindow._on_create_archive_button_clicked in Hth |- *.
    case_bool_decide; simpl in Hth |- *; [|congruence].
    injection Hth as <-. by rewrite Hw0. }
  destruct Hstart as (Hthread & Hw1 & Hworld1).
  split; [by rewrite Hthread|]. split.
  { intros Hrunning. unfold run_invariant in Hinv2.
    destruct (MainWindow._thread (window s2)); [|done].
    destruct Hinv2 as (Hr & _). simpl. by rewrite Hr. }
  destruct (exec_in_flight_run re_compile str th (world s1) (emitted s1) evs s1 0)
    as [k Hsim]; [done|done|done| |].
  { change (world s1 = world s1 ∧ emitted s1 = emitted s1 ++ []
            ∧ workers s1 = [run_start th]).
    by rewrite app_nil_r, Hw1. }
  fold s2 in Hsim.
  destruct (ArchiveWriterThread.run_loop k (run_start th) (world s1))
    as [[out pc] w] eqn:Hk.
  destruct Hsim as (Hw & He & Hws).
  split.
  { exists k. by rewrite Hk. }
  intros Hdone. unfold run_invariant in Hinv2. rewrite Hdone in Hinv2.
  destruct Hinv2 as [Hnone _]. rewrite Hnone in Hws.
  assert (Hhalt : ArchiveWriterThread.halted pc = true)
    by by destruct (ArchiveWriterThread.halted pc).
  assert (Hrun : run th (world s1) = (out, pc, w)).
  { rewrite <- Hk. unfold run, ArchiveWriterThread.run_body.
    apply run_loop_halted_unique.
    - apply (run_halted th (world s1)).
    - change (Iterating 0 (write_archive (_archive_file th) (_images th)))
        with (run_start th).
      by rewrite Hk. }
  by rewrite Hrun.
Qed.

(** A run over two images, the selection changed on the way, up to the
    delivery of its completed signal. *)
Lemma in_flight_run_is_start_time_run_witness :
  let re_compile (text : string) := MainWindow.Compiled text in
  let str (e : exception) :=
    match e with
    | OSError f => "[Errno 2] No such file or directory: '" +:+ f +:+ "'"
    | OtherException n | NonException n => n
    end in
  let a := mkImage "photo_a.jpg" "trip/a.jpg" in
  let b := mkImage "photo_b.jpg" "trip/b.jpg" in
  let fs : gmap string node :=
    {["photo_a.jpg" := Regular [x01]; "photo_b.jpg" := Regular [x02]]} in
  let s0 := exec re_compile str [collection_mutated [a; b]; modelReset] (init fs ∅) in
  let s1 := dispatch re_compile str (create_clicked "out.tar.gz") s0 in
  let th := ArchiveWriterThread.mk "out.tar.gz" 0 in
  let evs := [worker_runs 0; signal_delivered; selectionChanged [1];
              worker_runs 0; worker_runs 0; signal_delivered;
              signal_delivered] in
  emitted (exec re_compile str evs s1) = emitted s1 ++ (run th (world s1)).1.1
  ∧ world (exec re_compile str evs s1) = (run th (world s1)).2.
Proof.
  intros re_compile str a b fs s0 s1 th evs.
  refine (proj2 (proj2 (proj2
            (in_flight_run_is_start_time_run re_compile str s0 "out.tar.gz" th evs
               _ _ _ _ _))) _).
  - exact (reachable_exec re_compile str _ _ (reachable_init re_compile str fs ∅)).
  - vm_compute. reflexivity.
  - vm_compute. reflexivity.
  - repeat constructor.
  - vm_compute. repeat split; discriminate.
  - vm_compute. reflexivity.
Defined.

(** C4, as the claim has it, fails: the run sees a mutation of the
    collection made while it is in flight.  An export of two images is
    started; before the thread has resumed the writer for the first
    time, the second image is taken out of the collection from outside
    the window; the run then completes with one step and an archive of
    one member, where a run over the sequence as it was at the start
    has two steps and two members. *)
Lemma mutation_reaches_in_flight_run :
  let re_compile (text : string) := MainWindow.Compiled text in
  let str (e : exception) :=
    match e with
    | OSError f => "[Errno 2] No such file or directory: '" +:+ f +:+ "'"
    | OtherException n | NonException n => n
    end in
  let a := mkImage "photo_a.jpg" "trip/a.jpg" in
  let b := mkImage "photo_b.jpg" "trip/b.jpg" in
  let fs : gmap string node :=
    {["photo_a.jpg" := Regular [x01]; "photo_b.jpg" := Regular [x02]]} in
  let s0 := exec re_compile str [collection_mutated [a; b]; modelReset] (init fs ∅) in
  let s1 := dispatch re_compile str (create_clicked "out.tar.gz") s0 in
  let th := ArchiveWriterThread.mk "out.tar.gz" 0 in
  let evs := [collection_mutated [a]; worker_runs 0; worker_runs 0;
              signal_delivered; signal_delivered] in
  let s2 := exec re_compile str evs s1 in
  MainWindow._thread (window s1) = Some th
  ∧ in_flight_along re_compile str evs s1
  ∧ MainWindow._thread (window s2) = None
  ∧ emitted s1 = []
  ∧ emitted s2 = [step 0 a; completed]
  ∧ (run th (world s1)).1.1 = [step 0 a; step 1 b; completed]
  ∧ files (world s2) !! "out.tar.gz"
    = Some (Archive [mkMember "trip/a.jpg" [x01]] true)
  ∧ files (run th (world s1)).2 !! "out.tar.gz"
    = Some (Archive [mkMember "trip/a.jpg" [x01];
                     mkMember "trip/b.jpg" [x02]] true)
  ∧ ¬ (emitted s2 = emitted s1 ++ (run th (world s1)).1.1
       ∧ files (world s2) = files (run th (world s1)).2).
Proof.
  intros re_compile str a b fs s0 s1 th evs s2.
  assert (He2 : emitted s2 = [step 0 a; completed]) by (vm_compute; reflexivity).
  assert (He1 : emitted s1 = []) by (vm_compute; reflexivity).
  assert (Hrun : (run th (world s1)).1.1 = [step 0 a; step 1 b; completed])
    by (vm_compute; reflexivity).
  split; [vm_compute; reflexivity|].
  split; [vm_compute; repeat split; discriminate|].
  split; [vm_compute; reflexivity|].
  split; [done|]. split; [done|]. split; [done|].
  split; [vm_compute; reflexivity|].
  split; [vm_compute; reflexivity|].
  intros [He _]. rewrite He1, He2, Hrun in He. discriminate.
Qed.




(** C6.  In every state the application can reach there is at most one
    worker; when the thread field is empty nothing runs and nothing is
    queued; and while the thread field is set, a click on the create
    button starts nothing, and an event empties the field exactly when
    it is the delivery of a completed or error signal, which is then the
    last signal of a run whose worker has returned. *)
Theorem one_run_at_a_time {Pattern} (re_compile : string → MainWindow.compiled Pattern)
    (str : exception → string)
    (s : System Pattern) :
  reachable re_compile str s →
  length (workers s) ≤ 1
  ∧ (MainWindow._thread (window s) = None → workers s = [] ∧ channel s = [])
  ∧ (MainWindow._thread (window s) ≠ None →
     (∀ archive_file,
        dispatch re_compile str (create_clicked archive_file) s = s)
     ∧ (∀ ev,
          MainWindow._thread (window (dispatch re_compile str ev s)) = None
          ↔ ev = signal_delivered
            ∧ ∃ sig, channel s = [sig] ∧ is_terminal sig = true
                     ∧ workers s = [])).
Proof.
  intros Hreach. pose proof (reachable_invariant re_compile str s Hreach) as Hinv.
  unfold run_invariant in Hinv.
  destruct (MainWindow._thread (window s)) as [th|] eqn:Hth.
  - destruct Hinv as (Hr & Hc & Hrun).
    split; [by destruct Hrun as [(i & g & -> & _)|(-> & _)]; simpl; lia|].
    split; [done|]. intros _. split.
    { intros archive_file. simpl. by rewrite Hc. }
    intros ev. split.
    + destruct ev as [text|rows| | | |archive_file|imgs|k|]; simpl.
      * destruct (text_changed_frame re_compile text (window s))
          as (Hth' & _). rewrite Hth'. congruence.
      * congruence.
      * congruence.
      * congruence.
      * rewrite Hr. congruence.
      * rewrite Hc. congruence.
      * congruence.
      * destruct (workers s !! k); [|congruence].
        destruct (ArchiveWriterThread.run_step _ _) as [[? ?] ?]. simpl. congruence.
      * destruct (channel s) as [|sig rest] eqn:Hch; [congruence|].
        destruct sig as [i img| |e]; simpl; [congruence| |].
        -- intros _. split; [done|].
           destruct Hrun as [(i & g & _ & Hsteps)|(Hw & pre & last & Hq & Hlast & Hpre)].
           ++ by apply Forall_cons in Hsteps as [? _].
           ++ destruct pre as [|x pre]; simpl in Hq; simplify_eq; [eauto|].
              by apply Forall_cons in Hpre as [? _].
        -- intros _. split; [done|].
           destruct Hrun as [(i & g & _ & Hsteps)|(Hw & pre & last & Hq & Hlast & Hpre)].
           ++ by apply Forall_cons in Hsteps as [? _].
           ++ destruct pre as [|x pre]; simpl in Hq; simplify_eq; [eauto|].
              by apply Forall_cons in Hpre as [? _].
    + intros (-> & sig & Hch & Hsig & _). simpl. rewrite Hch.
      by destruct sig.
  - destruct Hinv as [-> ->]. split; [simpl; lia|]. split; [done|]. done.
Qed.

(** A run over one image, its worker returned and its two signals still
    queued: a click on the create button is without effect. *)
Lemma one_run_at_a_time_witness :
  let re_compile (text : string) := MainWindow.Compiled text in
  let str (e : exception) :=
    match e with
    | OSError f => "[Errno 2] No such file or directory: '" +:+ f +:+ "'"
    | OtherException n | NonException n => n
    end in
  let a := mkImage "photo_a.jpg" "trip/a.jpg" in
  let fs : gmap string node := {["photo_a.jpg" := Regular [x01]]} in
  let s := exec re_compile str
             [collection_mutated [a]; modelReset; create_clicked "out.tar.gz";
              worker_runs 0; worker_runs 0] (init fs ∅) in
  channel s = [step 0 a; completed]
  ∧ dispatch re_compile str (create_clicked "again.tar.gz") s = s.
Proof.
  intros re_compile str a fs s. split; [vm_compute; reflexivity|].
  refine (proj1 (proj2 (proj2 (one_run_at_a_time re_compile str s _)) _)
            "again.tar.gz").
  - exact (reachable_exec re_compile str _ _ (reachable_init re_compile str fs ∅)).
  - vm_compute. discriminate.
Defined.

(** C7.  From the click that starts a run to the delivery of its
    terminal signal, whether completed or error, the events of the
    application -- the iterations of the worker, the deliveries of its
    signals, and whatever the user does in the window meanwhile -- leave
    the collection, and the heap of lists as a whole, as it was before
    the click. *)
Theorem export_leaves_collection {Pattern}
    (re_compile : string → MainWindow.compiled Pattern)
    (str : exception → string) (s0 : System Pattern)
    (archive_file : string) (evs : list event) :
  reachable re_compile str s0 →
  Forall (λ ev, is_mutation ev = false) evs →
  let s1 := dispatch re_compile str (create_clicked archive_file) s0 in
  in_flight_along re_compile str evs s1 →
  collections (world (exec re_compile str evs s1)) = collections (world s0)
  ∧ deref (world (exec re_compile str evs s1)) (MainWindow._images (window s0))
    = deref (world s0) (MainWindow._images (window s0)).
Proof.
  intros Hreach Hevs s1 Hfl.
  assert (Hcol : collections (world (exec re_compile str evs s1))
                 = collections (world s0)).
  { rewrite exec_in_flight_collections; [| |done|done].
    - unfold s1. by rewrite create_clicked_world.
    - by apply run_invariant_dispatch, (reachable_invariant re_compile str). }
  split; [done|]. unfold deref. by rewrite Hcol.
Qed.

(** A run over two images whose second source is missing, with a
    change of the selection and a click on the disabled remove button
    on the way: the run ends with an error, the collection is intact. *)
Lemma export_leaves_collection_witness :
  let re_compile (text : string) := MainWindow.Compiled text in
  let str (e : exception) :=
    match e with
    | OSError f => "[Errno 2] No such file or directory: '" +:+ f +:+ "'"
    | OtherException n | NonException n => n
    end in
  let a := mkImage "photo_a.jpg" "trip/a.jpg" in
  let b := mkImage "missing.jpg" "trip/b.jpg" in
  let fs : gmap string node := {["photo_a.jpg" := Regular [x01]]} in
  let s0 := exec re_compile str [collection_mutated [a; b]; modelReset] (init fs ∅) in
  let s1 := dispatch re_compile str (create_clicked "out.tar.gz") s0 in
  let evs := [worker_runs 0; selectionChanged [0]; remove_clicked;
              worker_runs 0; signal_delivered; signal_delivered] in
  emitted (exec re_compile str evs s1) = [step 0 a; error (OSError "missing.jpg")]
  ∧ MainWindow._thread (window (exec re_compile str evs s1)) = None
  ∧ deref (world (exec re_compile str evs s1)) 0 = [a; b].
Proof.
  intros re_compile str a b fs s0 s1 evs.
  split; [vm_compute; reflexivity|]. split; [vm_compute; reflexivity|].
  assert (H0 : MainWindow._images (window s0) = 0) by (vm_compute; reflexivity).
  assert (Himgs : deref (world s0) 0 = [a; b]) by (vm_compute; reflexivity).
  rewrite <- Himgs, <- H0.
  refine (proj2 (export_leaves_collection re_compile str s0 "out.tar.gz" evs _ _ _)).
  - exact (reachable_exec re_compile str _ _ (reachable_init re_compile str fs ∅)).
  - repeat constructor.
  - vm_compute. repeat split; discriminate.
Defined.

(** C8.  A change of the text of the filter box, whatever the text and
    whatever pattern it sets on the table model, leaves the collection,
    the file system, the threads and the signal queue as they are, and
    also the reference of the window to its collection, its thread
    field and the state of the create button.  An export started after
    it is the
    export that would have been started before it: the thread is given
    the reference of the collection itself, and when its run ends
    without error it has emitted one step for each image of the whole
    collection, in order. *)
Theorem filter_leaves_export {Pattern}
    (re_compile : string → MainWindow.compiled Pattern)
    (str : exception → string) (s : System Pattern)
    (text archive_file : string) :
  let s1 := dispatch re_compile str (textChanged text) s in
  let imgs := deref (world s) (MainWindow._images (window s)) in
  let th := ArchiveWriterThread.mk archive_file (MainWindow._images (window s)) in
  (world s1 = world s ∧ workers s1 = workers s
   ∧ channel s1 = channel s ∧ emitted s1 = emitted s)
  ∧ (MainWindow._images (window s1) = MainWindow._images (window s)
     ∧ MainWindow._thread (window s1) = MainWindow._thread (window s)
     ∧ MainWindow._create_archive_button (window s1)
       = MainWindow._create_archive_button (window s))
  ∧ (let s2 := dispatch re_compile str (create_clicked archive_file) s in
     let s2' := dispatch re_compile str (create_clicked archive_file) s1 in
     world s2' = world s2 ∧ workers s2' = workers s2
     ∧ MainWindow._thread (window s2') = MainWindow._thread (window s2)
     ∧ (MainWindow._create_archive_button (window s) = true →
        archive_file ≠ "" →
        MainWindow._thread (window s2') = Some th
        ∧ workers s2' = workers s ++ [run_start th]))
  ∧ (∀ out pc w', run th (world s1) = (out, pc, w') →
       (∀ e, error e ∉ out) → out = imap step imgs ++ [completed]).
Proof.
  intros s1 imgs th.
  destruct (text_changed_frame re_compile text (window s))
    as (Hth & Him & Hsel & Hr & Hc & Hst & Hpb).
  split; [done|]. split; [done|]. split.
  - simpl. rewrite Hc.
    destruct (MainWindow._create_archive_button (window s)); [|by simpl].
    unfold MainWindow._on_create_archive_button_clicked.
    case_bool_decide as Hf; simpl.
    + rewrite Him. by repeat split.
    + split; [done|]. split; [done|]. split; [done|]. by intros _ Hne.
  - intros out pc w' Hrun Hnoerr.
    destruct (run_write_archive th (world s)) as (ys & fin & w1 & Hrun' & _ & Hfin).
    change (world s1) with (world s) in Hrun.
    rewrite Hrun in Hrun'. injection Hrun' as -> -> ->.
    destruct fin as [e|]; [|by subst ys].
    destruct Hfin as [He _]. exfalso. apply (Hnoerr e).
    simpl. rewrite He. apply elem_of_app. right. by left.
Qed.

(** A filter for the first of two images, then the export of both. *)
Lemma filter_leaves_export_witness :
  let re_compile (text : string) := MainWindow.Compiled text in
  let str (e : exception) :=
    match e with
    | OSError f => "[Errno 2] No such file or directory: '" +:+ f +:+ "'"
    | OtherException n | NonException n => n
    end in
  let a := mkImage "photo_a.jpg" "trip/a.jpg" in
  let b := mkImage "photo_b.jpg" "trip/b.jpg" in
  let fs : gmap string node :=
    {["photo_a.jpg" := Regular [x01]; "photo_b.jpg" := Regular [x02]]} in
  let s := exec re_compile str [collection_mutated [a; b]; modelReset] (init fs ∅) in
  let s1 := dispatch re_compile str (textChanged "a\.jpg") s in
  MainWindow._thread (window (dispatch re_compile str (create_clicked "out.tar.gz") s1))
  = Some (ArchiveWriterThread.mk "out.tar.gz" 0)
  ∧ (run (ArchiveWriterThread.mk "out.tar.gz" 0) (world s1)).1.1
    = [step 0 a; step 1 b; completed].
Proof.
  intros re_compile str a b fs s s1.
  destruct (filter_leaves_export re_compile str s "a\.jpg" "out.tar.gz")
    as (_ & _ & (_ & _ & _ & Hstart) & Hrun).
  split.
  - apply Hstart; [reflexivity | discriminate].
  - set (th := ArchiveWriterThread.mk "out.tar.gz" 0).
    assert (Hout : (run th (world s1)).1.1 = [step 0 a; step 1 b; completed])
      by (vm_compute; reflexivity).
    apply (Hrun (run th (world s1)).1.1 (run th (world s1)).1.2
                (run th (world s1)).2).
    + rewrite <- !surjective_pairing. reflexivity.
    + intros e. rewrite Hout. intros Hin.
      repeat (apply elem_of_cons in Hin as [Hin|Hin]; [discriminate|]).
      by apply elem_of_nil in Hin.
Defined.

(** C9.  What the handler of the filter box does with a text.  On an
    empty text, and on a text on which [re.compile] raises [re.error],
    it sets the pattern of the table model to [None] and returns; on a
    text [re.compile] compiles it sets the pattern to the compiled one
    and returns.  But on a text on which [re.compile] raises another
    exception, as it does with [OverflowError] on [a{4294967296}], the
    exception escapes the handler, and the window is left as it was,
    its former pattern included: the pattern is not set to [None]. *)
Theorem filter_text_outcomes {Pattern}
    (re_compile : string → MainWindow.compiled Pattern)
    (text : string) (self : MainWindow.t Pattern) :
  let result := MainWindow._on_regex_line_edit_text_changed re_compile text self in
  (text = "" ∨ re_compile text = MainWindow.re_error →
   MainWindow._posix_path_pattern result.1 = None ∧ result.2 = None)
  ∧ (text ≠ "" → ∀ p, re_compile text = MainWindow.Compiled p →
     MainWindow._posix_path_pattern result.1 = Some p ∧ result.2 = None)
  ∧ (text ≠ "" → ∀ e, re_compile text = MainWindow.Raised e →
     result = (self, Some e)).
Proof.
  unfold MainWindow._on_regex_line_edit_text_changed.
  destruct (decide (text = "")) as [->|Hne].
  - simpl. split; [done|]. split; [done|]. done.
  - rewrite (bool_decide_eq_true_2 _ Hne).
    destruct (re_compile text) as [p| |e] eqn:Hre; simpl.
    + split; [intros [?|?]; done|]. split; [|done]. by intros _ p' [= ->].
    + split; [done|]. split; [|done]. by intros _ p' ?.
    + split; [intros [?|?]; done|]. split; [done|]. by intros _ e' [= ->].
Qed.

(** A repetition count of 2**32 after the pattern [old]: the handler is
    left by [OverflowError] and the pattern [old] stays. *)
Lemma filter_text_outcomes_witness :
  let re_compile (text : string) :=
    if bool_decide (text = "a{4294967296}")
    then MainWindow.Raised (OtherException "OverflowError")
    else MainWindow.Compiled text in
  let self := MainWindow.mk None 0 (Some "old") (Some "background-color: white")
                [] false false "Ready"
                (MainWindow.mkProgressBar true None None) in
  let result :=
    MainWindow._on_regex_line_edit_text_changed re_compile "a{4294967296}" self in
  result.2 = Some (OtherException "OverflowError")
  ∧ MainWindow._posix_path_pattern result.1 = Some "old"
  ∧ MainWindow._posix_path_pattern result.1 ≠ None.
Proof.
  intros re_compile self result.
  assert (Hresult : result = (self, Some (OtherException "OverflowError"))).
  { refine (proj2 (proj2 (filter_text_outcomes re_compile "a{4294967296}" self))
              _ (OtherException "OverflowError") _).
    - discriminate.
    - reflexivity. }
  rewrite Hresult. by repeat split.
Defined.

(** C10.  For a set of selected rows of the collection, the remove
    handler pops the rows from the largest to the smallest, each once;
    no pop fails, and the collection, read back from the world the
    handler leaves, is the original sequence without the elements at
    the selected rows, the others in their order; the other lists and
    the file system are as they were.  The result is the same in
    whatever order the rows were selected. *)
Theorem removing_rows_keeps_the_rest {Pattern} (self : MainWindow.t Pattern) w :
  let rows := MainWindow._selected_rows self in
  let images := MainWindow._images self in
  let imgs := deref w images in
  NoDup rows →
  (∀ r, r ∈ rows → r < length imgs) →
  let result := MainWindow._on_remove_selected_rows_button_clicked self w in
  StronglySorted (λ a b, b < a) (MainWindow.sorted_reverse rows)
  ∧ MainWindow.sorted_reverse rows ≡ₚ rows
  ∧ result.2 = None
  ∧ deref result.1 images = MainWindow.without_rows rows imgs
  ∧ (∀ l, l ≠ images → deref result.1 l = deref w l)
  ∧ files result.1 = files w
  ∧ (∀ rows', rows' ≡ₚ rows →
       let result' :=
         MainWindow._on_remove_selected_rows_button_clicked
           (MainWindow.set_selected_rows rows' self) w in
       result'.2 = None
       ∧ deref result'.1 images = MainWindow.without_rows rows imgs).
Proof.
  intros rows images imgs Hnd Hlt result.
  assert (Hpop : ∀ rows', rows' ≡ₚ rows →
            MainWindow.pop_each (MainWindow.sorted_reverse rows') imgs
            = (MainWindow.without_rows rows imgs, None)).
  { intros rows' Hp. rewrite pop_each_sorted_reverse.
    - f_equal. apply without_rows_from_ext. intros r. by rewrite Hp.
    - by rewrite Hp.
    - intros r Hr. apply Hlt. by rewrite <- Hp. }
  split; [by apply sorted_reverse_strict|].
  split; [apply sorted_reverse_Permutation|].
  assert (Hself : result
                  = (set_collection w images
                       (MainWindow.without_rows rows imgs), None)).
  { unfold result, MainWindow._on_remove_selected_rows_button_clicked.
    fold rows images imgs. by rewrite (Hpop rows). }
  rewrite Hself. simpl.
  split; [done|]. split; [apply deref_set_collection|].
  split; [intros l Hl; by apply deref_set_collection_ne|]. split; [done|].
  intros rows' Hp.
  unfold MainWindow._on_remove_selected_rows_button_clicked. simpl.
  fold images imgs. rewrite (Hpop rows' Hp). simpl.
  split; [done|]. apply deref_set_collection.
Qed.

(** Rows 1, 3 and 0 of five images, selected in this order. *)
Lemma removing_rows_keeps_the_rest_witness :
  let img n := mkImage n n in
  let self := MainWindow.mk (Pattern:=string) None 0 None None [1; 3; 0]
                true false "Ready" (MainWindow.mkProgressBar true None None) in
  let w := mkWorld {[0 := [img "a"; img "b"; img "c"; img "d"; img "e"]]} ∅ ∅ in
  deref (MainWindow._on_remove_selected_rows_button_clicked self w).1 0
  = [img "c"; img "e"].
Proof.
  intros img self w.
  refine (proj1 (proj2 (proj2 (proj2
            (removing_rows_keeps_the_rest self w _ _))))).
  - change (NoDup [1; 3; 0]). apply (bool_decide_unpack _). reflexivity.
  - change (∀ r, r ∈ [1; 3; 0] → r < 5). intros r Hr.
    apply (Forall_forall (λ r, r < 5) [1; 3; 0]); [|exact Hr].
    repeat constructor.
Defined.

(** * Further properties of [run] *)

Section RunShape.

Context {G : Type} `{Generator G}.

(** At any moment of the loop of [run], what has been emitted is a run
    of steps numbered without gaps from where [enumerate] started,
    followed, once the loop is over, by what the end of the generator
    calls for. *)
Lemma run_loop_shape k : ∀ i (g : G) w out pc w',
  run_loop k (Iterating i g) w = (out, pc, w') →
  ∃ ys,
    (∃ g', pc = Iterating (i + length ys) g'
           ∧ out = imap (λ j, step (i + j)) ys)
    ∨ (∃ fin, pc = ended fin
              ∧ out = imap (λ j, step (i + j)) ys ++ last_signal fin).
Proof.
  induction k as [|k IH]; intros i g w out pc w' Hk.
  - injection Hk as <- <- <-. exists []. left. exists g.
    by rewrite Nat.add_0_r.
  - change (run_loop (S k) (Iterating i g) w)
      with (let '(out, pc', w') := run_step (Iterating i g) w in
            let '(out', pc'', w'') := run_loop k pc' w' in
            (out ++ out', pc'', w'')) in Hk.
    simpl in Hk. destruct (gen_next g w) as [[img g1| |e] w1].
    + destruct (run_loop k (Iterating (S i) g1) w1) as [[out1 pc1] w2] eqn:Hk1.
      injection Hk as <- <- <-.
      assert (Hshift : ∀ ys : list Image,
                imap ((λ j, step (i + j)) ∘ S) ys
                = imap (λ j, step (S i + j)) ys).
      { intros ys. apply imap_ext. intros j y _. simpl. f_equal. lia. }
      destruct (IH _ _ _ _ _ _ Hk1) as [ys [(g' & -> & ->)|(fin & -> & ->)]];
        exists (img :: ys).
      * left. exists g'. simpl. rewrite Nat.add_0_r, Hshift.
        split; [f_equal; lia|done].
      * right. exists fin. simpl. by rewrite Nat.add_0_r, Hshift.
    + rewrite run_loop_Returned in Hk. injection Hk as <- <- <-.
      exists []. right. by exists None.
    + exists []. right. exists (Some e). simpl.
      destruct (isinstance_Exception e).
      * rewrite run_loop_Returned in Hk. by injection Hk as <- <- <-.
      * rewrite run_loop_Uncaught in Hk. by injection Hk as <- <- <-.
Qed.

End RunShape.

(** X1.  Whatever the generator and however far the loop of [run] has
    come, the signals emitted so far are the steps 0, 1, 2, ... in this
    order, each index once; a completed or an error signal comes only
    when [run] returns, then as the last signal and alone of its kind;
    and when [run] ends without either, the generator has raised an
    exception that is not an [Exception]. *)
Theorem run_signals_in_order {G} `{Generator G} fuel (archive_writer : G) w :
  ∃ ys,
    let '(out, pc, _) := run_body fuel archive_writer w in
    (∃ g', pc = Iterating (length ys) g' ∧ out = imap step ys)
    ∨ (pc = Returned ∧ out = imap step ys ++ [completed])
    ∨ (∃ e, pc = Returned ∧ isinstance_Exception e = true
            ∧ out = imap step ys ++ [error e])
    ∨ (∃ e, pc = Uncaught e ∧ isinstance_Exception e = false
            ∧ out = imap step ys).
Proof.
  unfold run_body.
  destruct (run_loop fuel (Iterating 0 archive_writer) w) as [[out pc] w'] eqn:Hk.
  destruct (run_loop_shape _ _ _ _ _ _ _ Hk) as [ys [(g' & -> & ->)|(fin & -> & ->)]];
    exists ys.
  - left. by exists g'.
  - right. destruct fin as [e|]; simpl; [|by left].
    right. destruct (isinstance_Exception e) eqn:He.
    + left. by exists e.
    + right. exists e. by rewrite app_nil_r.
Qed.

(** X2.  When the generator raises an exception that is not an
    [Exception], after having yielded [imgs], [run] emits the steps for
    [imgs] and nothing else: neither a completed nor an error signal. *)
Theorem run_uncaught_is_silent {G} `{Generator G} fuel (archive_writer : G)
    w imgs e w' :
  gen_trace fuel archive_writer w = (imgs, Some (Some e), w') →
  isinstance_Exception e = false →
  run_body fuel archive_writer w = (imap step imgs, Uncaught e, w')
  ∧ (completed ∉ imap step imgs)
  ∧ (∀ e', error e' ∉ imap step imgs).
Proof.
  intros Htr He. unfold run_body.
  rewrite (run_loop_gen_trace _ 0 _ _ _ _ _ Htr). simpl. rewrite He, app_nil_r.
  split; [done|]. split.
  - apply completed_not_in_steps.
  - intros e'. apply error_not_in_steps.
Qed.

(** A generator interrupted at its second resumption. *)
Lemma run_uncaught_is_silent_witness :
  let a := mkImage "photo_a.jpg" "trip/a.jpg" in
  let interrupted : Generator bool :=
    λ started w,
      if started then (Raise (NonException "KeyboardInterrupt"), w)
      else (Yield a true, w) in
  let w := mkWorld ∅ ∅ ∅ in
  run_body (H:=interrupted) 5 false w
  = ([step 0 a], Uncaught (NonException "KeyboardInterrupt"), w).
Proof.
  intros a interrupted w.
  refine (proj1 (run_uncaught_is_silent (H:=interrupted) 5 false w [a]
                   (NonException "KeyboardInterrupt") w _ _));
    reflexivity.
Defined.

(** * Further properties of the handlers *)

Section PopEach.

Import MainWindow.


Lemma pop_each_sublist rows : ∀ imgs,
  (pop_each rows imgs).1 `sublist_of` imgs.
Proof.
  induction rows as [|r rest IH]; intros imgs; simpl; [done|].
  unfold pop. case_decide; simpl; [|done].
  etrans; [apply IH|]. apply sublist_delete.
Qed.

Lemma pop_each_length rows : ∀ imgs imgs',
  pop_each rows imgs = (imgs', None) →
  length imgs' + length rows = length imgs.
Proof.
  induction rows as [|r rest IH]; intros imgs imgs' Hpop; simpl in *.
  - injection Hpop as <-. lia.
  - unfold pop in Hpop. case_decide as Hr; [|done].
    apply IH in Hpop. rewrite length_delete in Hpop by by apply lookup_lt_is_Some.
    lia.
Qed.

End PopEach.

(** X3.  Whatever rows are selected, valid or not and in whatever
    order, the remove handler only takes elements out: the collection it
    leaves is a subsequence of the collection it found, so that nothing
    is added and the elements left keep their order. *)
Theorem remove_only_removes {Pattern} (self : MainWindow.t Pattern) w :
  deref (MainWindow._on_remove_selected_rows_button_clicked self w).1
        (MainWindow._images self)
  `sublist_of` deref w (MainWindow._images self).
Proof.
  unfold MainWindow._on_remove_selected_rows_button_clicked.
  pose proof (pop_each_sublist
                (MainWindow.sorted_reverse (MainWindow._selected_rows self))
                (deref w (MainWindow._images self))) as Hsub.
  destruct (MainWindow.pop_each _ _) as [imgs exc]. simpl in *.
  by rewrite deref_set_collection.
Qed.

(** X5.  When the remove handler returns without an exception, the
    collection has lost exactly as many elements as rows were selected,
    a row selected twice counting twice. *)
Theorem remove_length {Pattern} (self : MainWindow.t Pattern) w :
  (MainWindow._on_remove_selected_rows_button_clicked self w).2 = None →
  length (deref (MainWindow._on_remove_selected_rows_button_clicked self w).1
                (MainWindow._images self))
  + length (MainWindow._selected_rows self)
  = length (deref w (MainWindow._images self)).
Proof.
  unfold MainWindow._on_remove_selected_rows_button_clicked.
  destruct (MainWindow.pop_each _ _) as [imgs exc] eqn:Hpop. simpl.
  intros ->. rewrite deref_set_collection.
  apply pop_each_length in Hpop. rewrite <- Hpop. f_equal.
  apply Permutation_length. symmetry. apply sorted_reverse_Permutation.
Qed.

(** Rows 2 and 0 of three images. *)
Lemma remove_length_witness :
  let img n := mkImage n n in
  let self := MainWindow.mk (Pattern:=string) None 0 None None [2; 0]
                true false "Ready" (MainWindow.mkProgressBar true None None) in
  let w := mkWorld {[0 := [img "a"; img "b"; img "c"]]} ∅ ∅ in
  length (deref (MainWindow._on_remove_selected_rows_button_clicked self w).1 0)
  + 2 = 3.
Proof.
  intros img self w.
  refine (remove_length self w _). vm_compute. reflexivity.
Defined.

(** X6.  After [_update_button_states] the create button is enabled
    exactly when no thread is set, the collection is not empty, and no
    two of its images have the same archive-relative path. *)
Theorem create_button_enabled_iff {Pattern} (self : MainWindow.t Pattern) w :
  let imgs := deref w (MainWindow._images self) in
  MainWindow._create_archive_button (MainWindow._update_button_states w self)
  = true
  ↔ MainWindow._thread self = None
    ∧ imgs ≠ []
    ∧ (∀ i j a b, imgs !! i = Some a → imgs !! j = Some b →
                  posix_path a = posix_path b → i = j).
Proof.
  intros imgs. unfold MainWindow._update_button_states. simpl. fold imgs.
  unfold MainWindow.thread_is_None.
  rewrite !andb_true_iff, !bool_decide_eq_true, distinct_posix_paths_NoDup.
  rewrite NoDup_alt. split.
  - intros [[Hth Hlen] Hnd]. split; [by destruct (MainWindow._thread self)|].
    split; [by destruct imgs; simpl in Hlen; [lia|]|].
    intros i j a b Hi Hj Hab. apply (Hnd i j (posix_path a)).
    + by rewrite list_lookup_fmap, Hi.
    + by rewrite list_lookup_fmap, Hj, Hab.
  - intros (Hth & Hne & Hinj). rewrite Hth. split; [split; [done|]|].
    + destruct imgs; [done|simpl; lia].
    + intros i j p Hi Hj. rewrite list_lookup_fmap in Hi, Hj.
      destruct (imgs !! i) as [a|] eqn:Ha; [|done].
      destruct (imgs !! j) as [b|] eqn:Hb; [|done].
      simpl in Hi, Hj. apply (Hinj i j a b Ha Hb). congruence.
Qed.

(** X7.  The handler of the filter box forgets what was typed before.
    When handling the last text raises no exception, handling it after
    another text leaves the window as handling it alone does, whether
    the earlier text raised or not; in particular handling such a text
    twice is handling it once.  When handling the last text raises, the
    exception escapes again and the window stays as the earlier text
    left it. *)
Theorem filter_text_last_wins {Pattern}
    (re_compile : string → MainWindow.compiled Pattern)
    (text text' : string) (self : MainWindow.t Pattern) :
  let handler := MainWindow._on_regex_line_edit_text_changed re_compile in
  ((handler text' self).2 = None →
   handler text' (handler text self).1 = handler text' self)
  ∧ (∀ e, (handler text' self).2 = Some e →
     handler text' (handler text self).1 = ((handler text self).1, Some e)).
Proof.
  unfold MainWindow._on_regex_line_edit_text_changed.
  destruct (bool_decide (text' ≠ "")), (bool_decide (text ≠ ""));
    destruct (re_compile text'), (re_compile text); simpl;
    (split; [intros ?|intros ? ?]); (reflexivity || congruence).
Qed.

(** A text that does not compile, typed after a text that does and
    after a text on which [re.compile] raises [OverflowError]. *)
Lemma filter_text_last_wins_witness :
  let re_compile (text : string) :=
    if bool_decide (text = "a{4294967296}")
    then MainWindow.Raised (OtherException "OverflowError")
    else if bool_decide (text = "(")
    then MainWindow.re_error
    else MainWindow.Compiled text in
  let handler := MainWindow._on_regex_line_edit_text_changed re_compile in
  let self := MainWindow.mk None 0 (Some "old") (Some "background-color: white")
                [] false false "Ready"
                (MainWindow.mkProgressBar true None None) in
  handler "(" (handler "a.*" self).1 = handler "(" self
  ∧ handler "(" (handler "a{4294967296}" self).1 = handler "(" self
  ∧ handler "a{4294967296}" (handler "(" self).1
    = ((handler "(" self).1, Some (OtherException "OverflowError")).
Proof.
  intros re_compile handler self. split; [|split].
  - refine (proj1 (filter_text_last_wins re_compile "a.*" "(" self) _).
    reflexivity.
  - refine (proj1 (filter_text_last_wins re_compile "a{4294967296}" "(" self) _).
    reflexivity.
  - refine (proj2 (filter_text_last_wins re_compile "(" "a{4294967296}" self)
              (OtherException "OverflowError") _).
    reflexivity.
Defined.

(** * What the window shows of a run in flight *)

Section NextSignal.

(** In a sequence of steps followed by at most one terminal signal, the
    signal after the first [length xs] steps is the step of that index,
    or it is the terminal signal and the last. *)
Lemma next_of_steps (xs ys : list Image) sig rest tail :
  imap step xs ++ sig :: rest = imap step ys ++ tail →
  tail = [] ∨ (∃ t, tail = [t] ∧ is_terminal t = true) →
  (∃ img, sig = step (length xs) img)
  ∨ (is_terminal sig = true ∧ rest = [] ∧ tail = [sig]
     ∧ length xs = length ys).
Proof.
  intros Heq Htail.
  assert (Hsig : (imap step ys ++ tail) !! length xs = Some sig).
  { rewrite <- Heq, lookup_app_r; rewrite length_imap; [|done].
    by rewrite Nat.sub_diag. }
  assert (Hlen : length xs + S (length rest) = length ys + length tail).
  { apply (f_equal length) in Heq.
    by rewrite !length_app, !length_imap in Heq. }
  apply lookup_app_Some in Hsig as [Hsig|[Hge Hsig]].
  - left. apply step_lookup_imap in Hsig as (img & _ & ->). by exists img.
  - rewrite length_imap in Hge, Hsig. right.
    destruct Htail as [->|(t & -> & Ht)]; [done|].
    destruct (length xs - length ys) as [|n] eqn:Hn; simpl in Hsig; [|done].
    injection Hsig as <-. simpl in Hlen.
    assert (length rest = 0) as Hrest%nil_length_inv by lia.
    repeat split; [done..|lia].
Qed.

End NextSignal.

Section Display.

Import App Display.

Context {Pattern : Type} (re_compile : string → MainWindow.compiled Pattern)
        (str : exception → string).

Implicit Types (s : System Pattern).

Lemma run_loop_tail k th w0 out pc w :
  run_loop k (run_start th) w0 = (out, pc, w) →
  ∃ ys tail, out = imap step ys ++ tail
             ∧ (tail = [] ∨ (∃ t, tail = [t] ∧ is_terminal t = true)).
Proof.
  intros Hk. unfold run_start in Hk.
  destruct (run_loop_shape _ _ _ _ _ _ _ Hk)
    as [ys [(g' & _ & ->)|(fin & _ & ->)]]; exists ys.
  - exists []. split; [by rewrite app_nil_r|by left].
  - exists (last_signal fin). split; [done|].
    destruct fin as [e|]; simpl; [|right; by exists completed].
    destruct (isinstance_Exception e); [right; by exists (error e)|by left].
Qed.

(** The click that starts a run sets the display for it. *)
Lemma display_invariant_start s archive_file th :
  run_invariant s →
  MainWindow._thread (window s) = None →
  let s1 := dispatch re_compile str (create_clicked archive_file) s in
  MainWindow._thread (window s1) = Some th →
  display_invariant str th (world s1) (emitted s1)
    (length (deref (world s) (MainWindow._images (window s)))) s1.
Proof.
  intros Hinv Hidle s1 Hth.
  unfold run_invariant in Hinv. rewrite Hidle in Hinv.
  destruct Hinv as [Hw0 Hc0].
  exists 0, []. unfold s1 in *. simpl in *.
  destruct (MainWindow._create_archive_button (window s)); [|congruence].
  unfold MainWindow._on_create_archive_button_clicked in *.
  case_bool_decide; simpl in *; [|congruence].
  injection Hth as <-. rewrite Hw0, Hc0, app_nil_r. simpl.
  repeat split; try done. left. by repeat split.
Qed.

(** An event that is not a mutation keeps the display of a run in
    flight in step with the run. *)
Lemma display_invariant_dispatch th w0 e0 n ev s :
  run_invariant s →
  MainWindow._thread (window s) ≠ None →
  is_mutation ev = false →
  display_invariant str th w0 e0 n s →
  display_invariant str th w0 e0 n (dispatch re_compile str ev s).
Proof.
  intros Hinv Hth Hev (k & xs & Hdisp). unfold run_invariant in Hinv.
  destruct (MainWindow._thread (window s)) as [th'|] eqn:Hth'; [|done].
  destruct Hinv as (Hr & Hc & Hrun).
  destruct (run_loop k (run_start th) w0) as [[out pc] w] eqn:Hk.
  destruct Hdisp as (Hw & He & Hws & Hmax & Hval & [Hfl|Hdone]);
    [|destruct Hdone as (Hnone & _); congruence].
  destruct Hfl as (_ & Hout & Hhid & Hst).
  assert (Hsame : display_invariant str th w0 e0 n s).
  { exists k, xs. rewrite Hk. cbv zeta. repeat split; try done.
    left. repeat split; try done. congruence. }
  destruct ev as [text|rows| | | |archive_file|imgs|j|]; try done.
  - (* textChanged *)
    destruct (text_changed_frame re_compile text (window s))
      as (Hth1 & _ & _ & _ & _ & Hst1 & Hpb1).
    exists k, xs. rewrite Hk. simpl. rewrite Hpb1, Hst1, Hth1, Hth'.
    repeat split; try done. left. by repeat split.
  - (* selectionChanged *)
    exists k, xs. rewrite Hk. simpl. rewrite Hth'.
    repeat split; try done. left. by repeat split.
  - exists k, xs. rewrite Hk. simpl. rewrite Hth'.
    repeat split; try done. left. by repeat split.
  - exists k, xs. rewrite Hk. simpl. rewrite Hth'.
    repeat split; try done. left. by repeat split.
  - (* remove_clicked *)
    simpl. by rewrite Hr.
  - (* create_clicked *)
    simpl. by rewrite Hc.
  - (* worker_runs *)
    simpl. destruct (workers s !! j) as [pcj|] eqn:Hj; [|done].
    destruct (halted pc) eqn:Hhalt; rewrite Hws in Hj; [done|].
    destruct j as [|j]; [|done]. injection Hj as <-.
    exists (S k), xs. rewrite run_loop_snoc, Hk.
    destruct (run_step pc w) as [[out' pc'] w'] eqn:Hstep.
    rewrite Hw, Hstep. simpl. rewrite Hth', He, Hws, Hout.
    split; [done|]. split; [by rewrite !app_assoc|].
    split; [by destruct pc'|]. split; [done|]. split; [done|].
    left. by rewrite app_assoc.
  - (* signal_delivered *)
    simpl. destruct (channel s) as [|sig rest] eqn:Hch; [done|].
    destruct (run_loop_tail _ _ _ _ _ _ Hk) as (ys & tail & Hshape & Htail).
    rewrite Hout in Hshape.
    destruct (next_of_steps _ _ _ _ _ Hshape Htail)
      as [(img & ->)|(Hsig & -> & -> & Hlen)].
    + exists k, (xs ++ [img]). rewrite Hk. simpl. rewrite Hth'.
      split; [done|]. split; [done|]. split; [done|]. split; [done|].
      split; [by rewrite length_app|].
      left. split; [done|]. split; [|done].
      rewrite Hout, imap_app, <- app_assoc. simpl. by rewrite Nat.add_0_r.
    + exists k, xs. rewrite Hk.
      destruct sig as [i img| |e]; [done| |]; simpl;
        (split; [done|]); (split; [done|]); (split; [done|]);
        (split; [done|]); (split; [done|]);
        right; rewrite Hw; repeat split; eauto.
Qed.

Lemma display_invariant_exec th w0 e0 n evs : ∀ s,
  run_invariant s →
  Forall (λ ev, is_mutation ev = false) evs →
  in_flight_along re_compile str evs s →
  display_invariant str th w0 e0 n s →
  display_invariant str th w0 e0 n (exec re_compile str evs s).
Proof.
  induction evs as [|ev evs IH]; intros s Hinv Hevs Hfl Hdisp; [done|].
  apply Forall_cons in Hevs as [Hev Hevs]. destruct Hfl as [Hth Hfl].
  change (exec re_compile str (ev :: evs) s)
    with (exec re_compile str evs (dispatch re_compile str ev s)).
  apply IH; [by apply run_invariant_dispatch|done|done|].
  by apply display_invariant_dispatch.
Qed.

End Display.

Section Reachable.

Import App.

Context {Pattern : Type} (re_compile : string → MainWindow.compiled Pattern)
        (str : exception → string).

Implicit Types (s : System Pattern).

(** What a click that sets the thread field has done. *)
Lemma create_clicked_started s archive_file th :
  MainWindow._thread (window s) = None →
  let s1 := dispatch re_compile str (create_clicked archive_file) s in
  MainWindow._thread (window s1) = Some th →
  th = ArchiveWriterThread.mk archive_file (MainWindow._images (window s))
  ∧ world s1 = world s
  ∧ MainWindow._images (window s1) = MainWindow._images (window s).
Proof.
  intros Hidle s1 Hth. unfold s1 in *. simpl in *.
  destruct (MainWindow._create_archive_button (window s)); [|congruence].
  unfold MainWindow._on_create_archive_button_clicked in *.
  case_bool_decide; simpl in *; [|congruence].
  by injection Hth as <-.
Qed.

(** No handler rebinds [self._images], and the thread a click makes is
    given that very reference. *)
Lemma images_reference_dispatch ev s :
  MainWindow._images (window s) = 0
  ∧ (∀ th, MainWindow._thread (window s) = Some th → _images th = 0) →
  MainWindow._images (window (dispatch re_compile str ev s)) = 0
  ∧ (∀ th, MainWindow._thread (window (dispatch re_compile str ev s)) = Some th →
           _images th = 0).
Proof.
  intros [Himg Hth].
  destruct ev as [text|rows| | | |archive_file|imgs|k|]; simpl; try done.
  - destruct (text_changed_frame re_compile text (window s))
      as (Hth1 & Himg1 & _). by rewrite Hth1, Himg1.
  - by destruct (MainWindow._remove_selected_rows_button (window s)).
  - destruct (MainWindow._create_archive_button (window s)); [|done].
    unfold MainWindow._on_create_archive_button_clicked.
    case_bool_decide; simpl; [|done].
    split; [done|]. by intros th [= <-].
  - destruct (workers s !! k); [|done].
    by destruct (ArchiveWriterThread.run_step _ _) as [[? ?] ?].
  - destruct (channel s) as [|sig rest]; [done|].
    by destruct sig.
Qed.

Lemma images_reference_reachable s :
  reachable re_compile str s →
  MainWindow._images (window s) = 0
  ∧ (∀ th, MainWindow._thread (window s) = Some th → _images th = 0).
Proof.
  induction 1 as [fs ro|ev s _ IH]; [by split|].
  by apply images_reference_dispatch.
Qed.

(** Every change of the thread field or of the selection is followed by
    [_update_button_states] before the handler returns. *)
Lemma remove_button_dispatch ev s :
  MainWindow._remove_selected_rows_button (window s)
  = MainWindow.thread_is_None (window s) && MainWindow.hasSelection (window s) →
  MainWindow._remove_selected_rows_button (window (dispatch re_compile str ev s))
  = MainWindow.thread_is_None (window (dispatch re_compile str ev s))
    && MainWindow.hasSelection (window (dispatch re_compile str ev s)).
Proof.
  intros Hsync.
  destruct ev as [text|rows| | | |archive_file|imgs|k|]; simpl; try done.
  - destruct (text_changed_frame re_compile text (window s))
      as (Hth1 & _ & Hsel1 & Hr1 & _).
    unfold MainWindow.thread_is_None, MainWindow.hasSelection.
    by rewrite Hth1, Hsel1, Hr1.
  - destruct (MainWindow._remove_selected_rows_button (window s)) eqn:Hb;
      simpl; by rewrite Hb.
  - destruct (MainWindow._create_archive_button (window s)); [|done].
    unfold MainWindow._on_create_archive_button_clicked.
    by case_bool_decide.
  - destruct (workers s !! k); [|done].
    by destruct (ArchiveWriterThread.run_step _ _) as [[? ?] ?].
  - destruct (channel s) as [|sig rest]; [done|].
    by destruct sig.
Qed.

End Reachable.

(** * Further properties of the application *)

Import Display.

(** X8.  In every state the application can reach, the remove button is
    enabled exactly when no thread is set and some row is selected, and
    the create button is enabled only when no thread is set. *)
Theorem buttons_follow_thread {Pattern} (re_compile : string → MainWindow.compiled Pattern)
    (str : exception → string)
    (s : System Pattern) :
  reachable re_compile str s →
  (MainWindow._remove_selected_rows_button (window s) = true
   ↔ MainWindow._thread (window s) = None
     ∧ MainWindow._selected_rows (window s) ≠ [])
  ∧ (MainWindow._create_archive_button (window s) = true →
     MainWindow._thread (window s) = None).
Proof.
  intros Hreach. split.
  - assert (Hsync : MainWindow._remove_selected_rows_button (window s)
              = MainWindow.thread_is_None (window s)
                && MainWindow.hasSelection (window s)).
    { induction Hreach as [fs ro|ev s _ IH]; [done|].
      by apply remove_button_dispatch. }
    rewrite Hsync, andb_true_iff.
    unfold MainWindow.thread_is_None, MainWindow.hasSelection.
    destruct (MainWindow._thread (window s)),
             (MainWindow._selected_rows (window s));
      simpl; split; intros [? ?]; done.
  - intros Hc.
    by destruct (run_invariant_idle s (reachable_invariant re_compile str s Hreach));
      [right|].
Qed.

(** A run in flight with a row selected: both buttons are disabled. *)
Lemma buttons_follow_thread_witness :
  let re_compile (text : string) := MainWindow.Compiled text in
  let str (e : exception) :=
    match e with
    | OSError f => "[Errno 2] No such file or directory: '" +:+ f +:+ "'"
    | OtherException n | NonException n => n
    end in
  let a := mkImage "photo_a.jpg" "trip/a.jpg" in
  let s := exec re_compile str
             [collection_mutated [a]; modelReset; create_clicked "out.tar.gz";
              selectionChanged [0]] (init ∅ ∅) in
  MainWindow._selected_rows (window s) = [0]
  ∧ ¬ (MainWindow._remove_selected_rows_button (window s) = true)
  ∧ ¬ (MainWindow._create_archive_button (window s) = true).
Proof.
  intros re_compile str a s.
  destruct (buttons_follow_thread re_compile str s) as [Hr Hc].
  { exact (reachable_exec re_compile str _ _ (reachable_init re_compile str ∅ ∅)). }
  split; [vm_compute; reflexivity|]. split.
  - intros [Hth _]%Hr. vm_compute in Hth. discriminate.
  - intros Hth%Hc. vm_compute in Hth. discriminate.
Defined.

(** X9.  In every state the application can reach, the window still
    refers to the list [__init__] created, and the thread in the thread
    field, if there is one, refers to the same list: the collection is
    shared, never copied and never replaced. *)
Theorem collection_is_shared {Pattern} (re_compile : string → MainWindow.compiled Pattern)
    (str : exception → string)
    (s : System Pattern) :
  reachable re_compile str s →
  MainWindow._images (window s) = 0
  ∧ (∀ th, MainWindow._thread (window s) = Some th →
           _images th = MainWindow._images (window s)).
Proof.
  intros Hreach.
  destruct (images_reference_reachable re_compile str s Hreach) as [Himg Hth].
  split; [done|]. intros th Hs. rewrite Himg. by apply Hth.
Qed.

(** The thread of a run in flight. *)
Lemma collection_is_shared_witness :
  let re_compile (text : string) := MainWindow.Compiled text in
  let str (e : exception) :=
    match e with
    | OSError f => "[Errno 2] No such file or directory: '" +:+ f +:+ "'"
    | OtherException n | NonException n => n
    end in
  let a := mkImage "photo_a.jpg" "trip/a.jpg" in
  let s := exec re_compile str
             [collection_mutated [a]; modelReset; create_clicked "out.tar.gz"]
             (init ∅ ∅) in
  _images (ArchiveWriterThread.mk "out.tar.gz" 0) = MainWindow._images (window s).
Proof.
  intros re_compile str a s.
  refine (proj2 (collection_is_shared re_compile str s _) _ _).
  - exact (reachable_exec re_compile str _ _ (reachable_init re_compile str ∅ ∅)).
  - vm_compute. reflexivity.
Defined.

Section DisplayOfRun.

Context {Pattern : Type} (re_compile : string → MainWindow.compiled Pattern)
        (str : exception → string).

(** The display of a run from the click that starts it on, as long as
    nothing outside the window mutates the collection. *)
Lemma display_of_run (s0 : System Pattern) archive_file th evs :
  reachable re_compile str s0 →
  MainWindow._thread (window s0) = None →
  let s1 := dispatch re_compile str (create_clicked archive_file) s0 in
  MainWindow._thread (window s1) = Some th →
  Forall (λ ev, is_mutation ev = false) evs →
  in_flight_along re_compile str evs s1 →
  display_invariant str th (world s1) (emitted s1)
    (length (deref (world s0) (MainWindow._images (window s0))))
    (exec re_compile str evs s1).
Proof.
  intros Hreach Hidle s1 Hth Hevs Hfl.
  pose proof (reachable_invariant re_compile str s0 Hreach) as Hinv0.
  apply display_invariant_exec; [by apply run_invariant_dispatch|done|done|].
  by apply display_invariant_start.
Qed.

End DisplayOfRun.

(** X10.  While a run is in flight and nothing outside the window
    mutates the collection, the window shows the message of a run in
    progress and the progress bar, whose maximum is the number of
    images the collection had at the click, and whose value is the
    number of steps delivered so far: what the run has emitted is these
    steps, numbered from 0, followed by the signals still queued. *)
Theorem progress_counts_delivered_steps {Pattern}
    (re_compile : string → MainWindow.compiled Pattern)
    (str : exception → string) (s0 : System Pattern)
    (archive_file : string) (th : ArchiveWriterThread.t) (evs : list event) :
  reachable re_compile str s0 →
  MainWindow._thread (window s0) = None →
  let s1 := dispatch re_compile str (create_clicked archive_file) s0 in
  MainWindow._thread (window s1) = Some th →
  Forall (λ ev, is_mutation ev = false) evs →
  in_flight_along re_compile str evs s1 →
  let s2 := exec re_compile str evs s1 in
  MainWindow._thread (window s2) ≠ None →
  let bar := MainWindow._progress_bar (window s2) in
  MainWindow._status_bar (window s2) = "Creating archive..."
  ∧ MainWindow.hidden bar = false
  ∧ MainWindow.maximum bar
    = Some (length (deref (world s0) (MainWindow._images (window s0))))
  ∧ ∃ xs, MainWindow.value bar = Some (length xs)
          ∧ emitted s2 = emitted s1 ++ imap step xs ++ channel s2.
Proof.
  intros Hreach Hidle s1 Hth Hevs Hfl s2 Hrunning bar.
  destruct (display_of_run re_compile str s0 archive_file th evs
              Hreach Hidle Hth Hevs Hfl) as (k & xs & Hdisp).
  fold s1 s2 in Hdisp.
  destruct (run_loop k (run_start th) (world s1)) as [[out pc] w].
  destruct Hdisp as (_ & He & _ & Hmax & Hval & [Hfl'|Hdone]);
    [|by destruct Hdone].
  destruct Hfl' as (_ & Hout & Hhid & Hst).
  split; [done|]. split; [done|]. split; [done|].
  exists xs. split; [done|]. by rewrite He, Hout.
Qed.

(** Two images, the first step delivered and the second queued. *)
Lemma progress_counts_delivered_steps_witness :
  let re_compile (text : string) := MainWindow.Compiled text in
  let str (e : exception) :=
    match e with
    | OSError f => "[Errno 2] No such file or directory: '" +:+ f +:+ "'"
    | OtherException n | NonException n => n
    end in
  let a := mkImage "photo_a.jpg" "trip/a.jpg" in
  let b := mkImage "photo_b.jpg" "trip/b.jpg" in
  let fs : gmap string node :=
    {["photo_a.jpg" := Regular [x01]; "photo_b.jpg" := Regular [x02]]} in
  let s0 := exec re_compile str [collection_mutated [a; b]; modelReset] (init fs ∅) in
  let s1 := dispatch re_compile str (create_clicked "out.tar.gz") s0 in
  let s2 := exec re_compile str [worker_runs 0; worker_runs 0; signal_delivered] s1 in
  MainWindow._status_bar (window s2) = "Creating archive..."
  ∧ MainWindow._progress_bar (window s2)
    = MainWindow.mkProgressBar false (Some 2) (Some 1)
  ∧ channel s2 = [step 1 b].
Proof.
  intros re_compile str a b fs s0 s1 s2.
  split; [|split; vm_compute; reflexivity].
  refine (proj1 (progress_counts_delivered_steps re_compile str s0 "out.tar.gz"
                   (ArchiveWriterThread.mk "out.tar.gz" 0)
                   [worker_runs 0; worker_runs 0; signal_delivered]
                   _ _ _ _ _ _)).
  - exact (reachable_exec re_compile str _ _ (reachable_init re_compile str fs ∅)).
  - vm_compute. reflexivity.
  - vm_compute. reflexivity.
  - repeat constructor.
  - vm_compute. repeat split; discriminate.
  - vm_compute. discriminate.
Defined.

(** X11.  When the terminal signal of a run has been delivered, and
    nothing outside the window has mutated the collection meanwhile,
    the progress bar is hidden, with the number of images as its
    maximum and the number of steps of the run as its value.  After a
    completed signal the message is that the archive was created and
    the bar is full; after an error signal the message is [Error: ]
    followed by [str] of the exception the signal carries.
    The create button is enabled again exactly when the collection,
    which is as it was, is not empty and has no two images with the
    same archive-relative path. *)
Theorem display_after_run {Pattern}
    (re_compile : string → MainWindow.compiled Pattern)
    (str : exception → string) (s0 : System Pattern)
    (archive_file : string) (th : ArchiveWriterThread.t) (evs : list event) :
  reachable re_compile str s0 →
  MainWindow._thread (window s0) = None →
  let s1 := dispatch re_compile str (create_clicked archive_file) s0 in
  MainWindow._thread (window s1) = Some th →
  Forall (λ ev, is_mutation ev = false) evs →
  in_flight_along re_compile str evs s1 →
  let s2 := exec re_compile str evs s1 in
  MainWindow._thread (window s2) = None →
  let imgs := deref (world s0) (MainWindow._images (window s0)) in
  let out := (run th (world s1)).1.1 in
  let bar := MainWindow._progress_bar (window s2) in
  MainWindow.hidden bar = true
  ∧ MainWindow.maximum bar = Some (length imgs)
  ∧ MainWindow.value bar = Some (length out - 1)
  ∧ ((out = imap step imgs ++ [completed]
      ∧ MainWindow._status_bar (window s2) = "Archive created"
      ∧ MainWindow.value bar = MainWindow.maximum bar)
     ∨ (∃ e, last out = Some (error e)
             ∧ MainWindow._status_bar (window s2)
               = MainWindow.error_message str e))
  ∧ (MainWindow._create_archive_button (window s2) = true
     ↔ imgs ≠ [] ∧ NoDup (posix_path <$> imgs)).
Proof.
  intros Hreach Hidle s1 Hth Hevs Hfl s2 Hended imgs out bar. unfold bar.
  pose proof (reachable_invariant re_compile str s0 Hreach) as Hinv0.
  assert (Hinv1 : run_invariant s1) by by apply run_invariant_dispatch.
  assert (Hinv2 : run_invariant s2) by by apply exec_invariant.
  destruct (create_clicked_started re_compile str s0 archive_file th Hidle Hth)
    as (Hthread & Hworld1 & Himg1).
  fold s1 in Hworld1, Himg1.
  destruct (display_of_run re_compile str s0 archive_file th evs
              Hreach Hidle Hth Hevs Hfl) as (k & xs & Hdisp).
  fold s1 s2 imgs in Hdisp.
  destruct (run_loop k (run_start th) (world s1)) as [[outk pc] w] eqn:Hk.
  destruct Hdisp as (Hw & He & Hws & Hmax & Hval & [Hfl'|Hdone]);
    [by destruct Hfl'|].
  destruct Hdone as (_ & Hch & Hhid & Hcreate & sig & Hsig & Houtk & Hst).
  (* the worker has returned: [outk] is what [run] emits *)
  unfold run_invariant in Hinv2. rewrite Hended in Hinv2.
  destruct Hinv2 as [Hnone _]. rewrite Hnone in Hws.
  assert (Hhalt : halted pc = true) by by destruct (halted pc).
  assert (Hrun : run th (world s1) = (outk, pc, w)).
  { rewrite <- Hk. unfold run, run_body. apply run_loop_halted_unique.
    - apply (run_halted th (world s1)).
    - change (Iterating 0 (write_archive (_archive_file th) (_images th)))
        with (run_start th).
      by rewrite Hk. }
  assert (Hout : out = imap step xs ++ [sig]) by (unfold out; by rewrite Hrun).
  (* the collection is as it was *)
  assert (Himgs2 : deref w (MainWindow._images (window s2)) = imgs).
  { rewrite <- Hw. unfold imgs, deref.
    destruct (images_reference_reachable re_compile str s0 Hreach) as [-> _].
    destruct (images_reference_reachable re_compile str s2) as [-> _].
    { apply reachable_exec. by constructor. }
    unfold s2. rewrite exec_in_flight_collections by done.
    by rewrite Hworld1. }
  assert (Hths : deref (world s1) (_images th) = imgs).
  { by rewrite Hthread, Hworld1. }
  split; [done|]. split; [done|]. split.
  { rewrite Hval, Hout, length_app, length_imap. simpl. f_equal. lia. }
  split.
  - destruct (run_write_archive th (world s1)) as (ys & fin & w' & Hrun' & _ & Hfin).
    rewrite Hrun, Houtk in Hrun'. injection Hrun' as Heq _ _.
    destruct sig as [i img| |e]; [done| |].
    + left. destruct fin as [e|]; simpl in Heq.
      * destruct Hfin as [He' _]. rewrite He' in Heq.
        by apply app_inj_tail in Heq as [_ ?].
      * apply app_inj_tail in Heq as [Heq _].
        rewrite Hths in Hfin. subst ys.
        assert (Hlen : length xs = length imgs).
        { apply (f_equal length) in Heq. by rewrite !length_imap in Heq. }
        split; [by rewrite Hout, Heq|]. split; [done|].
        by rewrite Hval, Hmax, Hlen.
    + right. exists e. split; [|done]. by rewrite Hout, last_snoc.
  - rewrite Hcreate, Himgs2, andb_true_iff, !bool_decide_eq_true.
    rewrite distinct_posix_paths_NoDup.
    split; intros [Hne Hnd]; (split; [|done]).
    + by destruct imgs; [simpl in Hne; lia|].
    + destruct imgs; [done|simpl; lia].
Qed.

(** Two images, the second source missing: one step, then the error. *)
Lemma display_after_run_witness :
  let re_compile (text : string) := MainWindow.Compiled text in
  let str (e : exception) :=
    match e with
    | OSError f => "[Errno 2] No such file or directory: '" +:+ f +:+ "'"
    | OtherException n | NonException n => n
    end in
  let a := mkImage "photo_a.jpg" "trip/a.jpg" in
  let b := mkImage "missing.jpg" "trip/b.jpg" in
  let fs : gmap string node := {["photo_a.jpg" := Regular [x01]]} in
  let s0 := exec re_compile str [collection_mutated [a; b]; modelReset] (init fs ∅) in
  let s1 := dispatch re_compile str (create_clicked "out.tar.gz") s0 in
  let evs := [worker_runs 0; worker_runs 0; signal_delivered; signal_delivered] in
  let s2 := exec re_compile str evs s1 in
  MainWindow._status_bar (window s2)
  = "Error: [Errno 2] No such file or directory: 'missing.jpg'"
  ∧ MainWindow._progress_bar (window s2)
    = MainWindow.mkProgressBar true (Some 2) (Some 1)
  ∧ MainWindow._create_archive_button (window s2) = true.
Proof.
  intros re_compile str a b fs s0 s1 evs s2.
  destruct (display_after_run re_compile str s0 "out.tar.gz"
              (ArchiveWriterThread.mk "out.tar.gz" 0) evs)
    as (_ & _ & _ & _ & Hcreate).
  - exact (reachable_exec re_compile str _ _ (reachable_init re_compile str fs ∅)).
  - vm_compute. reflexivity.
  - vm_compute. reflexivity.
  - repeat constructor.
  - vm_compute. repeat split; discriminate.
  - vm_compute. reflexivity.
  - split; [vm_compute; reflexivity|]. split; [vm_compute; reflexivity|].
    apply Hcreate. split; [vm_compute; discriminate|].
    change (NoDup ["trip/a.jpg"; "trip/b.jpg"]).
    apply (bool_decide_unpack _). vm_compute. reflexivity.
Defined.

(** * A run always comes to its end *)

Section Finishing.

Import App Display.

Context {Pattern : Type} (re_compile : string → MainWindow.compiled Pattern)
        (str : exception → string).

Implicit Types (s : System Pattern).

Lemma exec_app evs evs' s :
  exec re_compile str (evs ++ evs') s
  = exec re_compile str evs' (exec re_compile str evs s).
Proof. apply foldl_app. Qed.

(** Each value the writer yields leaves it with fewer to come. *)
Lemma gen_next_resumptions_left g w img g' w' :
  gen_next g w = (Yield img g', w') →
  resumptions_left g' w' < resumptions_left g w.
Proof.
  unfold gen_next, write_archive_next, write_archive_resume, resumptions_left.
  destruct g as [f l [|pos]]; simpl.
  - case_decide; [done|].
    change (deref (set_files w _) l) with (deref w l).
    destruct (deref w l !! 0) as [img0|] eqn:H0; [|done].
    destruct (read_file _ _); [|done].
    intros [= <- <- <-]. simpl. change (deref (set_files _ _) l) with (deref w l).
    lia.
  - destruct (deref w l !! pos) as [img0|] eqn:Hpos; [|done].
    destruct (read_file _ _); [|done].
    intros [= <- <- <-]. simpl. change (deref (set_files _ _) l) with (deref w l).
    apply lookup_lt_Some in Hpos. lia.
Qed.

(** Left to run, the worker of a run in flight returns, with the window
    as it was. *)
Lemma worker_finishes m : ∀ s i g,
  workers s = [Iterating i g] →
  resumptions_left g (world s) ≤ m →
  ∃ n, workers (exec re_compile str (replicate n (worker_runs 0)) s) = []
       ∧ window (exec re_compile str (replicate n (worker_runs 0)) s) = window s.
Proof.
  induction m as [|m IH]; intros s i g Hw Hm.
  - exists 1. simpl. rewrite Hw. simpl.
    destruct (gen_next g (world s)) as [[img g'| |e] w'] eqn:Hnext; simpl.
    + apply gen_next_resumptions_left in Hnext. lia.
    + done.
    + by rewrite (write_archive_next_Exception _ _ _ _ Hnext).
  - destruct (gen_next g (world s)) as [[img g'| |e] w'] eqn:Hnext.
    + pose proof (gen_next_resumptions_left _ _ _ _ _ Hnext) as Hlt.
      set (s' := dispatch re_compile str (worker_runs 0) s).
      assert (Hs' : workers s' = [Iterating (S i) g'] ∧ world s' = w'
                    ∧ window s' = window s).
      { unfold s'. simpl. rewrite Hw. simpl. by rewrite Hnext. }
      destruct Hs' as (Hw' & Hworld' & Hwin').
      destruct (IH s' (S i) g' Hw') as (n & Hn & Hwin); [rewrite Hworld'; lia|].
      exists (S n).
      change (exec re_compile str (replicate (S n) (worker_runs 0)) s)
        with (exec re_compile str (replicate n (worker_runs 0)) s').
      by rewrite Hwin.
    + exists 1. simpl. rewrite Hw. simpl. by rewrite Hnext.
    + exists 1. simpl. rewrite Hw. simpl. rewrite Hnext.
      by rewrite (write_archive_next_Exception _ _ _ _ Hnext).
Qed.

(** Delivered one after the other, the queued signals of a worker that
    has returned empty the thread field. *)
Lemma queue_drains pre : ∀ s sig,
  channel s = pre ++ [sig] →
  is_terminal sig = true →
  Forall (λ sig, is_terminal sig = false) pre →
  MainWindow._thread
    (window (exec re_compile str (replicate (S (length pre)) signal_delivered) s))
  = None.
Proof.
  induction pre as [|x pre IH]; intros s sig Hch Hsig Hpre; simpl in *.
  - rewrite Hch. by destruct sig.
  - apply Forall_cons in Hpre as [Hx Hpre]. rewrite Hch.
    destruct x as [i img| |e]; try done.
    by apply (IH _ sig).
Qed.

End Finishing.

(** X12.  A run in flight can always come to its end: from every state
    the application can reach with the thread field set, letting the
    worker run and then the queued signals be delivered, with no other
    event, leads to a state with the thread field empty again. *)
Theorem run_can_always_finish {Pattern} (re_compile : string → MainWindow.compiled Pattern)
    (str : exception → string)
    (s : System Pattern) :
  reachable re_compile str s →
  MainWindow._thread (window s) ≠ None →
  ∃ n m,
    MainWindow._thread
      (window (exec re_compile str
                 (replicate n (worker_runs 0) ++ replicate m signal_delivered)
                 s))
    = None.
Proof.
  intros Hreach Hth.
  pose proof (reachable_invariant re_compile str s Hreach) as Hinv.
  assert (Hqueue : ∀ s' : System Pattern,
            run_invariant s' → MainWindow._thread (window s') ≠ None →
            workers s' = [] →
            ∃ m, MainWindow._thread
                   (window (exec re_compile str (replicate m signal_delivered) s'))
                 = None).
  { intros s' Hinv' Hth' Hw'. unfold run_invariant in Hinv'.
    destruct (MainWindow._thread (window s')); [|done].
    destruct Hinv' as (_ & _ & [(i & g & Hw & _)|(_ & pre & sig & Hch & Hsig & Hpre)]);
      [congruence|].
    exists (S (length pre)). by eapply queue_drains. }
  destruct (workers s) as [|pc ws] eqn:Hw.
  - destruct (Hqueue s Hinv Hth Hw) as [m Hm]. by exists 0, m.
  - assert (∃ i g, pc = Iterating i g ∧ ws = []) as (i & g & -> & ->).
    { unfold run_invariant in Hinv.
      destruct (MainWindow._thread (window s)); [|done].
      destruct Hinv as (_ & _ & [(i & g & Hw' & _)|(Hw' & _)]);
        rewrite Hw in Hw'; [|done].
      injection Hw' as -> ->. eauto. }
    destruct (worker_finishes re_compile str _ s i g Hw (le_n _)) as (n & Hn & Hwin).
    destruct (Hqueue (exec re_compile str (replicate n (worker_runs 0)) s))
      as [m Hm]; [by apply exec_invariant|by rewrite Hwin|done|].
    exists n, m. by rewrite exec_app.
Qed.

(** A run over two images, started and not yet scheduled: three
    iterations and three deliveries end it. *)
Lemma run_can_always_finish_witness :
  let re_compile (text : string) := MainWindow.Compiled text in
  let str (e : exception) :=
    match e with
    | OSError f => "[Errno 2] No such file or directory: '" +:+ f +:+ "'"
    | OtherException n | NonException n => n
    end in
  let a := mkImage "photo_a.jpg" "trip/a.jpg" in
  let b := mkImage "photo_b.jpg" "trip/b.jpg" in
  let fs : gmap string node :=
    {["photo_a.jpg" := Regular [x01]; "photo_b.jpg" := Regular [x02]]} in
  let s := exec re_compile str
             [collection_mutated [a; b]; modelReset; create_clicked "out.tar.gz"]
             (init fs ∅) in
  ∃ n m,
    MainWindow._thread
      (window (exec re_compile str
                 (replicate n (worker_runs 0) ++ replicate m signal_delivered)
                 s))
    = None.
Proof.
  intros re_compile str a b fs s.
  apply (run_can_always_finish re_compile str s).
  - exact (reachable_exec re_compile str _ _ (reachable_init re_compile str fs ∅)).
  - vm_compute. discriminate.
Defined.

(** X13.  As long as the create button is not clicked with a file
    chosen in the dialog, whatever else happens, no thread is started,
    no signal is emitted and the file system is left as it was when the
    application started. *)
Theorem no_export_without_click {Pattern} (re_compile : string → MainWindow.compiled Pattern)
    (str : exception → string)
    (fs : gmap string node) (ro : gset string) (evs : list event) :
  Forall (λ ev, ∀ archive_file, ev = create_clicked archive_file →
                                archive_file = "") evs →
  let s := exec re_compile str evs (init fs ro) in
  MainWindow._thread (window s) = None
  ∧ workers s = []
  ∧ emitted s = []
  ∧ files (world s) = fs.
Proof.
  intros Hevs.
  assert (Hidle : ∀ s : System Pattern,
            MainWindow._thread (window s) = None ∧ workers s = []
            ∧ channel s = [] ∧ emitted s = [] ∧ files (world s) = fs →
            MainWindow._thread (window (exec re_compile str evs s)) = None
            ∧ workers (exec re_compile str evs s) = []
            ∧ channel (exec re_compile str evs s) = []
            ∧ emitted (exec re_compile str evs s) = []
            ∧ files (world (exec re_compile str evs s)) = fs).
  { induction evs as [|ev evs IH]; intros s Hs; [done|].
    apply Forall_cons in Hevs as [Hev Hevs].
    change (exec re_compile str (ev :: evs) s)
      with (exec re_compile str evs (dispatch re_compile str ev s)).
    apply IH; [done|]. destruct Hs as (Hth & Hw & Hch & He & Hfs).
    destruct ev as [text|rows| | | |archive_file|imgs|k|]; try done.
    - simpl.
      destruct (text_changed_frame re_compile text (window s)) as (Hth1 & _).
      by rewrite Hth1.
    - unfold dispatch.
      destruct (MainWindow._remove_selected_rows_button (window s)); [|done].
      cbn [window world workers channel emitted].
      unfold MainWindow._on_remove_selected_rows_button_clicked.
      by destruct (MainWindow.pop_each _ _).
    - simpl. rewrite (Hev archive_file eq_refl).
      destruct (MainWindow._create_archive_button (window s)); [|done].
      simpl. by rewrite Hw.
    - simpl. by rewrite Hw.
    - simpl. by rewrite Hch. }
  intros s. destruct (Hidle (init fs ro)) as (? & ? & _ & ? & ?); done.
Qed.

(** An image added, selected and removed again, and a dialog cancelled. *)
Lemma no_export_without_click_witness :
  let re_compile (text : string) := MainWindow.Compiled text in
  let str (e : exception) :=
    match e with
    | OSError f => "[Errno 2] No such file or directory: '" +:+ f +:+ "'"
    | OtherException n | NonException n => n
    end in
  let a := mkImage "photo_a.jpg" "trip/a.jpg" in
  let fs : gmap string node := {["photo_a.jpg" := Regular [x01]]} in
  let s := exec re_compile str
             [collection_mutated [a]; modelReset; selectionChanged [0];
              remove_clicked; collection_mutated [a]; modelReset;
              create_clicked ""; worker_runs 0; signal_delivered]
             (init fs ∅) in
  MainWindow._thread (window s) = None
  ∧ workers s = [] ∧ emitted s = [] ∧ files (world s) = fs.
Proof.
  intros re_compile str a fs s.
  apply (no_export_without_click re_compile str fs ∅).
  repeat (constructor; [intros f Hf; by inversion Hf|]). constructor.
Defined.
